(** * Verification of the cup-stencil image pipeline (src/unnamed/part_001, [imageProcessing])

    Shallow embedding of the TypeScript module that fits a photo onto the
    fixed cup canvas, tone-maps it (binary threshold, sampled halftone or
    passthrough) and encodes it under a byte budget.

    Numbers.  JavaScript numbers are IEEE-754 binary64 values.  The
    arithmetic of the module is written once, over the small interface
    [JsNumber] below, and instantiated twice:
    - [F64]: binary64, with the Standard Library's executable IEEE model
      [SpecFloat] (precision 53, emax 1024): this is what the browser runs;
    - [QExact]: exact rational arithmetic, the idealised reading.
    Thresholds, densities and byte budgets (finite option values) are kept
    as their exact rational values [Q]: the only operations the code applies
    to them ([Math.round], [Math.min], [Math.max] against integers) are exact
    on finite doubles.

    Browser primitives ([canvas.toBlob], [drawImage]) are external and are
    parameters of the model. *)

From Stdlib Require Import ZArith QArith Qround Qminmax List Lia String Ascii Sorting.
From Stdlib Require Import Floats.SpecFloat.
From stdpp Require Import base gmap strings pretty list.

Open Scope Z_scope.

(* ------------------------------------------------------------------ *)
(** ** JavaScript numbers *)

(** The operations of [number] the module uses. *)
Class JsNumber (N : Type) := {
  num_of_Z : Z -> N;                (** an integer value, e.g. a pixel byte *)
  num_add : N -> N -> N;            (** [a + b] *)
  num_sub : N -> N -> N;            (** [a - b] *)
  num_mul : N -> N -> N;            (** [a * b] *)
  num_div : N -> N -> N;            (** [a / b] *)
  num_leb : N -> N -> bool;         (** [a <= b] *)
  num_ltb : N -> N -> bool;         (** [a < b] *)
  num_eqb : N -> N -> bool;         (** [a === b] *)
  num_min : N -> N -> N;            (** [Math.min(a, b)] *)
  num_max : N -> N -> N;            (** [Math.max(a, b)] *)
  num_round : N -> N                (** [Math.round(a)] *)
}.

(** A decimal literal [n / 10^k] of the source, e.g. [0.299]: the
    literal denotes the number nearest to the rational, which is exactly
    what a correctly rounded division of the two integers yields. *)
Definition num_lit {N} `{JsNumber N} (num den : Z) : N :=
  num_div (num_of_Z num) (num_of_Z den).

(** [Math.round] on an exact value: the nearest integer, ties toward +oo. *)
Definition js_round (q : Q) : Z := Qfloor (q + (1 # 2)).

Module F64.
Definition prec : Z := 53.
Definition emax : Z := 1024.

(** The exact rational value of a finite double. *)
Definition to_Q (x : spec_float) : Q :=
  match x with
  | S754_finite s m e =>
      let mag := if (0 <=? e)%Z then inject_Z (Zpos m * 2 ^ e) else Zpos m # Z.to_pos (2 ^ (- e)) in
      if s then Qopp mag else mag
  | _ => 0%Q
  end.

Definition of_Z (z : Z) : spec_float := binary_normalize prec emax z 0 false.

Definition sign (x : spec_float) : bool :=
  match x with
  | S754_zero s | S754_infinity s | S754_finite s _ _ => s
  | S754_nan => false
  end.

(** [Math.round]: NaN, infinities and zeros are returned as they are; a
    finite value goes to the nearest integer (ties up), keeping the sign
    of a zero result ([Math.round(-0.3)] is [-0]). *)
Definition round (x : spec_float) : spec_float :=
  match x with
  | S754_finite s _ _ =>
      let k := js_round (to_Q x) in
      if (k =? 0)%Z then S754_zero s else of_Z k
  | _ => x
  end.

Definition is_nan (x : spec_float) : bool :=
  match x with S754_nan => true | _ => false end.

(** [Math.min]/[Math.max]: NaN if an argument is NaN; [-0 < +0]. *)
Definition min (a b : spec_float) : spec_float :=
  match SFcompare a b with
  | None => S754_nan
  | Some Lt => a
  | Some Gt => b
  | Some Eq => if sign a then a else b
  end.

Definition max (a b : spec_float) : spec_float :=
  match SFcompare a b with
  | None => S754_nan
  | Some Lt => b
  | Some Gt => a
  | Some Eq => if sign a then b else a
  end.
End F64.

#[export] Instance F64_number : JsNumber spec_float := {
  num_of_Z := F64.of_Z;
  num_add := SFadd F64.prec F64.emax;
  num_sub := SFsub F64.prec F64.emax;
  num_mul := SFmul F64.prec F64.emax;
  num_div := SFdiv F64.prec F64.emax;
  num_leb := SFleb;
  num_ltb := SFltb;
  num_eqb := SFeqb;
  num_min := F64.min;
  num_max := F64.max;
  num_round := F64.round
}.

#[export] Instance QExact_number : JsNumber Q := {
  num_of_Z := inject_Z;
  num_add := Qplus;
  num_sub := Qminus;
  num_mul := Qmult;
  num_div := Qdiv;
  num_leb := Qle_bool;
  num_ltb := fun a b => negb (Qle_bool b a);
  num_eqb := Qeq_bool;
  num_min := fun a b => if Qle_bool a b then a else b;
  num_max := fun a b => if Qle_bool a b then b else a;
  num_round := fun a => inject_Z (js_round a)
}.

(* ------------------------------------------------------------------ *)
(** ** Configuration ([src/unnamed/part_002], [@/config/heytea]) *)

Definition CUP_WIDTH : Z := 596.
Definition CUP_HEIGHT : Z := 832.
Definition MAX_UPLOAD_BYTES : Z := 200 * 1024.

(* ------------------------------------------------------------------ *)
(** ** Pixel buffers ([ImageData]) *)

(** One RGBA pixel: the four consecutive bytes [data[4i..4i+3]] of
    [ImageData.data] (a [Uint8ClampedArray] whose length is always
    [4 * width * height]). *)
Record Pixel := mkPixel { px_r : Z; px_g : Z; px_b : Z; px_a : Z }.

Record ImageData := mkImageData {
  img_width : nat;
  img_height : nat;
  img_data : list Pixel
}.

Definition with_data (img : ImageData) (d : list Pixel) : ImageData :=
  mkImageData (img_width img) (img_height img) d.

(** A byte of a [Uint8ClampedArray]. *)
Definition is_byte (v : Z) : Prop := 0 <= v <= 255.

(** [data[i] = data[i + 1] = data[i + 2] = value]: alpha is left alone. *)
Definition set_rgb (value : Z) (p : Pixel) : Pixel :=
  mkPixel value value value (px_a p).

(** A default parameter ([threshold = 170]) or [??]. *)
Definition with_default {A} (d : A) (o : option A) : A :=
  match o with Some x => x | None => d end.

(* ------------------------------------------------------------------ *)
(** ** Binary threshold ([applyBinaryThreshold], lines 270-278) *)

Section Tone.
Context {N : Type} `{JsNumber N}.

(** [data[i] * 0.299 + data[i + 1] * 0.587 + data[i + 2] * 0.114],
    evaluated left to right. *)
Definition luminance (p : Pixel) : N :=
  num_add
    (num_add (num_mul (num_of_Z (px_r p)) (num_lit 299 1000))
             (num_mul (num_of_Z (px_g p)) (num_lit 587 1000)))
    (num_mul (num_of_Z (px_b p)) (num_lit 114 1000)).

(** [Math.max(0, Math.min(255, Math.round(threshold)))] *)
Definition threshold_limit (threshold : option Q) : Z :=
  Z.max 0 (Z.min 255 (js_round (with_default (170 # 1) threshold))).

Definition binary_pixel (limit : Z) (p : Pixel) : Pixel :=
  let gray := luminance p in
  let value := if num_leb (num_of_Z limit) gray then 255 else 0 in
  set_rgb value p.

Definition applyBinaryThreshold (img : ImageData) (threshold : option Q) : ImageData :=
  let limit := threshold_limit threshold in
  with_data img (map (binary_pixel limit) (img_data img)).

End Tone.

(* ------------------------------------------------------------------ *)
(** ** Colour quantization ([quantizeColors], lines 165-172) *)

(** [Math.min(255, Math.round(v / divisor) * divisor)].  The quotient is
    taken exactly: for a byte [v] and an integer divisor the binary64
    quotient is either exact or at least [1/(2 divisor)] away from a
    half-integer, so [Math.round] sees the same integer part. *)
Definition quantize_channel (divisor v : Z) : Z :=
  Z.min 255 (js_round (inject_Z v / inject_Z divisor) * divisor).

Definition quantize_pixel (divisor : Z) (p : Pixel) : Pixel :=
  mkPixel (quantize_channel divisor (px_r p)) (quantize_channel divisor (px_g p))
          (quantize_channel divisor (px_b p)) (px_a p).

Definition quantizeColors (data : list Pixel) (step : Z) : list Pixel :=
  let divisor := if step <=? 0 then 1 else step in
  map (quantize_pixel divisor) data.

(* ------------------------------------------------------------------ *)
(** ** Halftone pattern ([getHalftonePattern], lines 228-268) *)

(** [Math.atan2(dy, dx)], kept as its two arguments: the sort only
    compares angles, and [angle_compare] decides the order of the real
    [atan2] values exactly.  [atan2] lies in (-pi, pi]: points below the
    axis come first (angles in (-pi, 0)), then the non-negative x half-axis
    (angle 0, also [atan2(0, 0)]), then points above the axis (0, pi), then
    the negative x half-axis (pi).  Inside the two open half-planes the
    angle grows counter-clockwise, i.e. a comes first when the cross
    product [a x b] is positive. *)
Record Angle := atan2 { angle_y : Q; angle_x : Q }.

Definition angle_sector (a : Angle) : nat :=
  if Qlt_le_dec (angle_y a) 0%Q then 0%nat
  else if Qeq_dec (angle_y a) 0%Q then (if Qle_bool 0%Q (angle_x a) then 1%nat else 3%nat)
  else 2%nat.

Definition angle_cross (a b : Angle) : Q :=
  (angle_x a * angle_y b - angle_y a * angle_x b)%Q.

Definition angle_compare (a b : Angle) : comparison :=
  match Nat.compare (angle_sector a) (angle_sector b) with
  | Eq => Qcompare 0%Q (angle_cross a b)
  | c => c
  end.

(** [{ index, distance, angle }] *)
Record Entry := mkEntry { index : nat; distance : Q; angle : Angle }.

(** One pixel of the block; [dx] and [dy] are multiples of 1/2, exact in
    binary64, and so is [dx * dx + dy * dy] for any block of fewer than
    2^25 columns and rows. *)
Definition make_entry (width height x y : nat) : Entry :=
  let centerX := ((inject_Z (Z.of_nat width) - 1) / 2)%Q in
  let centerY := ((inject_Z (Z.of_nat height) - 1) / 2)%Q in
  let dx := (inject_Z (Z.of_nat x) - centerX)%Q in
  let dy := (inject_Z (Z.of_nat y) - centerY)%Q in
  mkEntry (y * width + x)%nat (dx * dx + dy * dy)%Q (atan2 dy dx).

(** The two nested [for] loops pushing the entries row by row. *)
Definition make_entries (width height : nat) : list Entry :=
  flat_map (fun y => map (fun x => make_entry width height x y) (seq 0 width)) (seq 0 height).

(** The sign of the comparator
    [a.distance === b.distance ? a.angle - b.angle : a.distance - b.distance]. *)
Definition entry_compare (a b : Entry) : comparison :=
  if Qeq_bool (distance a) (distance b) then angle_compare (angle a) (angle b)
  else Qcompare (distance a) (distance b).

(** [Array.prototype.sort] with that comparator: a stable sort (ES2019),
    here a stable insertion sort; an element goes after every element it
    does not compare below. *)
Fixpoint sort_insert (x : Entry) (l : list Entry) : list Entry :=
  match l with
  | [] => [x]
  | y :: l' =>
      match entry_compare x y with
      | Lt => x :: y :: l'
      | _ => y :: sort_insert x l'
      end
  end.

Definition js_sort (l : list Entry) : list Entry :=
  fold_left (fun acc x => sort_insert x acc) l [].

(** A [Uint16Array] stores [ToUint16(v)], i.e. [v mod 2^16]. *)
Definition UINT16_RANGE : nat := 2 ^ 16.

Definition compute_pattern (width height : nat) : list nat :=
  map (fun e => index e mod UINT16_RANGE)%nat (js_sort (make_entries width height)).

(** The module-level [halftonePatternCache: Map<string, Uint16Array>]. *)
Abbreviation PatternCache := (gmap string (list nat)).

(** [`${width}x${height}`] *)
Definition pattern_key (width height : nat) : string :=
  pretty width +:+ "x" +:+ pretty height.

(** A cached [Uint16Array] is an object, hence truthy even when empty. *)
Definition getHalftonePattern (cache : PatternCache) (width height : nat)
    : list nat * PatternCache :=
  let key := pattern_key width height in
  match cache !! key with
  | Some cached => (cached, cache)
  | None =>
      let pattern := compute_pattern width height in
      (pattern, <[key := pattern]> cache)
  end.

(* ------------------------------------------------------------------ *)
(** ** Sampled halftone ([applySampledMonochrome], lines 174-226) *)

(** [for (let i = start; i < stop; i += step)]: the values [i] takes.
    The fuel [stop] bounds the number of iterations for any [step >= 1]. *)
Fixpoint for_range (fuel start stop step : nat) : list nat :=
  match fuel with
  | O => []
  | S fuel' => if (start <? stop)%nat then start :: for_range fuel' (start + step) stop step else []
  end.

Definition loop_range (stop step : nat) : list nat := for_range stop 0 stop step.

(** A [number] argument: a finite value, [Infinity], [-Infinity] or [NaN]. *)
Inductive NumArg := ArgFinite (q : Q) | ArgPosInf | ArgNegInf | ArgNaN.

(** [Math.max(2, Math.min(32, Math.round(density)))], [None] standing for
    [NaN]: [Math.round] keeps [NaN] and the infinities, and [Math.min] and
    [Math.max] return [NaN] as soon as one argument is [NaN]. *)
Definition block_size (density : option NumArg) : option Z :=
  match with_default (ArgFinite (6 # 1)) density with
  | ArgFinite q => Some (Z.max 2 (Z.min 32 (js_round q)))
  | ArgPosInf => Some 32
  | ArgNegInf => Some 2
  | ArgNaN => None
  end.

(** [data[idx]]: inside the loops [idx] is always in range. *)
Definition pixel_at (data : list Pixel) (idx : nat) : Pixel :=
  from_option id (mkPixel 0 0 0 0) (data !! idx).

Section Sampled.
Context {N : Type} `{JsNumber N}.

(** [clamp01] *)
Definition clamp01 (value : N) : N :=
  if num_ltb value (num_of_Z 0) then num_of_Z 0
  else if num_ltb (num_of_Z 1) value then num_of_Z 1
  else value.

(** The two inner loops summing the grey levels of the block. *)
Definition block_gray_sum (data : list Pixel) (width x y blockWidth blockHeight : nat) : N :=
  fold_left (fun graySum offsetY =>
    fold_left (fun graySum offsetX =>
      let idx := ((y + offsetY) * width + (x + offsetX))%nat in
      num_add graySum (luminance (pixel_at data idx)))
      (seq 0 blockWidth) graySum)
    (seq 0 blockHeight) (num_of_Z 0).

(** The write loop [for (let order = 0; order < pixelCount; order += 1)]:
    [pattern[order]] past the end of the pattern is [undefined], and the
    writes to [data[NaN]] are ignored; [alter] at an out-of-range index
    leaves the list unchanged, as a typed array ignores such writes. *)
Definition paint_block (pattern : list nat) (whitePixels : N)
    (width x y blockWidth pixelCount : nat) (data : list Pixel) : list Pixel :=
  fold_left (fun data order =>
    match pattern !! order with
    | None => data
    | Some localIndex =>
        let localX := (localIndex mod blockWidth)%nat in
        let localY := (localIndex / blockWidth)%nat in
        let idx := ((y + localY) * width + (x + localX))%nat in
        let value := if num_ltb (num_of_Z (Z.of_nat order)) whitePixels then 255 else 0 in
        alter (set_rgb value) idx data
    end) (seq 0 pixelCount) data.

(** The body of the inner block loop for the block at [(x, y)]. *)
Definition sample_block (bias : N) (width height blockSize y x : nat)
    (st : PatternCache * list Pixel) : PatternCache * list Pixel :=
  let '(cache, data) := st in
  let blockHeight := Nat.min blockSize (height - y) in
  let blockWidth := Nat.min blockSize (width - x) in
  let pixelCount := (blockWidth * blockHeight)%nat in
  if (pixelCount =? 0)%nat then (cache, data) else
  let graySum := block_gray_sum data width x y blockWidth blockHeight in
  let grayValue := num_div graySum (num_of_Z (Z.of_nat pixelCount)) in
  let normalized := clamp01 (num_sub (num_div grayValue (num_of_Z 255)) bias) in
  let whitePixels := num_round (num_mul normalized (num_of_Z (Z.of_nat pixelCount))) in
  let '(pattern, cache') := getHalftonePattern cache blockWidth blockHeight in
  (cache', paint_block pattern whitePixels width x y blockWidth pixelCount data).

(** The whole function; the pattern cache is threaded as state.  When
    [blockSize] is [NaN] each loop runs at most once, for [0] (after
    [y += NaN] the test [NaN < height] is false), and in that one block
    [blockHeight], [blockWidth] and [pixelCount] are [NaN], so
    [!pixelCount] skips it: neither the pixels nor the cache change. *)
Definition applySampledMonochrome (cache : PatternCache) (img : ImageData)
    (density : option NumArg) (threshold : option Q) : PatternCache * ImageData :=
  match block_size density with
  | None => (cache, img)
  | Some bs =>
  let blockSize := Z.to_nat bs in
  let limit := threshold_limit threshold in
  let bias := num_div (num_sub (num_of_Z limit) (num_of_Z 170)) (num_of_Z 255) in
  let width := img_width img in
  let height := img_height img in
  let '(cache', data') :=
    fold_left (fun st y =>
      fold_left (fun st x => sample_block bias width height blockSize y x st)
        (loop_range width blockSize) st)
      (loop_range height blockSize) (cache, img_data img) in
  (cache', with_data img data')
  end.

End Sampled.

(* ------------------------------------------------------------------ *)
(** ** Fitting onto the cup canvas ([renderToCupCanvas], lines 51-61) *)

Inductive Fit := Contain | Cover.

Record Placement (N : Type) := mkPlacement {
  offsetX : N; offsetY : N; drawWidth : N; drawHeight : N
}.
Arguments mkPlacement {N}.
Arguments offsetX {N}.
Arguments offsetY {N}.
Arguments drawWidth {N}.
Arguments drawHeight {N}.

Section Geometry.
Context {N : Type} `{JsNumber N}.

Definition fit_scale (fit : Fit) (srcW srcH : Z) : N :=
  let sx := num_div (num_of_Z CUP_WIDTH) (num_of_Z srcW) in
  let sy := num_div (num_of_Z CUP_HEIGHT) (num_of_Z srcH) in
  match fit with
  | Cover => num_max sx sy
  | Contain => num_min sx sy
  end.

Definition place_image (fit : Fit) (srcW srcH : Z) : Placement N :=
  let scale := fit_scale fit srcW srcH in
  let dw := num_mul (num_of_Z srcW) scale in
  let dh := num_mul (num_of_Z srcH) scale in
  mkPlacement (num_div (num_sub (num_of_Z CUP_WIDTH) dw) (num_of_Z 2))
              (num_div (num_sub (num_of_Z CUP_HEIGHT) dh) (num_of_Z 2))
              dw dh.

End Geometry.

(* ------------------------------------------------------------------ *)
(** ** Encoding under a byte budget (lines 80-163) *)

Record Blob := mkBlob { blob_type : string; blob_size : Z }.

(** [{ type, quality? }] *)
Record Attempt := mkAttempt { attempt_type : string; attempt_quality : option Q }.

(** One [canvasToBlob(canvas, type, quality)] call, with the pixels the
    canvas holds at that moment. *)
Record EncodeCall := mkEncodeCall {
  call_pixels : ImageData; call_type : string; call_quality : option Q
}.

(** [canvas.toBlob]: the browser's encoder; [None] is a [null] blob. *)
Definition Encoder := ImageData -> string -> option Q -> option Blob.

(** The [Error]s the pipeline throws. *)
Inductive RenderError :=
  | CanvasUnsupported              (** '当前浏览器不支持 Canvas' *)
  | ExportFailed                   (** '无法导出图片' *)
  | PngOverBudget (kb : Z).        (** `PNG 压缩后仍超过 ${Math.round(maxBytes / 1024)}KB` *)

Inductive Outcome (A : Type) :=
  | Ok (a : A)
  | Throw (e : RenderError).
Arguments Ok {A}.
Arguments Throw {A}.

Definition attempts : list Attempt :=
  [ mkAttempt "image/png" None;
    mkAttempt "image/jpeg" (Some (95 # 100));
    mkAttempt "image/jpeg" (Some (90 # 100));
    mkAttempt "image/jpeg" (Some (85 # 100));
    mkAttempt "image/jpeg" (Some (80 # 100));
    mkAttempt "image/jpeg" (Some (75 # 100));
    mkAttempt "image/jpeg" (Some (70 # 100));
    mkAttempt "image/jpeg" (Some (65 # 100));
    mkAttempt "image/jpeg" (Some (60 # 100));
    mkAttempt "image/jpeg" (Some (55 # 100));
    mkAttempt "image/jpeg" (Some (50 # 100));
    mkAttempt "image/jpeg" (Some (45 # 100));
    mkAttempt "image/jpeg" (Some (40 # 100));
    mkAttempt "image/jpeg" (Some (35 # 100));
    mkAttempt "image/jpeg" (Some (30 # 100)) ].

Section ExportLadder.
Variable to_blob : Encoder.

(** The [for (const attempt of attempts)] loop of [exportWithCompression],
    with [candidate] as loop state; the first component lists the encoder
    calls made. *)
Fixpoint compression_loop (canvas : ImageData) (maxBytes : Z) (todo : list Attempt)
    (candidate : option Blob) : list EncodeCall * Outcome Blob :=
  match todo with
  | [] =>
      ([], match candidate with
           | None => Throw ExportFailed
           | Some c => Ok c
           end)
  | attempt :: rest =>
      let call := mkEncodeCall canvas (attempt_type attempt) (attempt_quality attempt) in
      match to_blob canvas (attempt_type attempt) (attempt_quality attempt) with
      | None =>
          let '(calls, r) := compression_loop canvas maxBytes rest candidate in
          (call :: calls, r)
      | Some blob =>
          if blob_size blob <=? maxBytes then ([call], Ok blob)
          else
            let '(calls, r) := compression_loop canvas maxBytes rest (Some blob) in
            (call :: calls, r)
      end
  end.

Definition exportWithCompression (canvas : ImageData) (maxBytes : Z)
    : list EncodeCall * Outcome Blob :=
  compression_loop canvas maxBytes attempts None.

Definition png_steps : list Z := [0; 8; 16; 24; 32; 40; 48; 64; 80; 96; 112; 128; 160; 192].

(** [working]: a copy of the base pixels, quantized when [step > 0]. *)
Definition quantized_working (base : ImageData) (step : Z) : ImageData :=
  if 0 <? step then with_data base (quantizeColors (img_data base) step) else base.

Fixpoint quantization_loop (base : ImageData) (maxBytes : Z) (todo : list Z)
    (fallback : option Blob) : list EncodeCall * option Blob :=
  match todo with
  | [] =>
      ([], match fallback with
           | Some f => if blob_size f <=? maxBytes then Some f else None
           | None => None
           end)
  | step :: rest =>
      let working := quantized_working base step in
      let call := mkEncodeCall working "image/png" None in
      match to_blob working "image/png" None with
      | None =>
          let '(calls, r) := quantization_loop base maxBytes rest fallback in
          (call :: calls, r)
      | Some blob =>
          if blob_size blob <=? maxBytes then ([call], Some blob)
          else
            let '(calls, r) := quantization_loop base maxBytes rest (Some blob) in
            (call :: calls, r)
      end
  end.

Definition exportPngWithQuantization (base : ImageData) (maxBytes : Z)
    : list EncodeCall * option Blob :=
  quantization_loop base maxBytes png_steps None.

End ExportLadder.

(* ------------------------------------------------------------------ *)
(** ** The pipeline ([renderToCupCanvas], lines 37-91) *)

Inductive ToneMode := Binary | Sampled | Original.
Inductive TargetFormat := Png | Auto.

Record RenderOptions := mkRenderOptions {
  toneMode : ToneMode;
  threshold : option Q;
  sampleDensity : option NumArg;
  fit : Fit;
  maxBytes : option Z;
  targetFormat : option TargetFormat
}.

Record SourceImage := mkSourceImage { image_width : Z; image_height : Z }.

(** The browser: [canvas.getContext('2d')] succeeds or not; the canvas
    after [clearRect] and [drawImage] at a placement, as [getImageData]
    reads it; [getImageData] after [putImageData]; [canvas.toBlob]. *)
Record Platform (N : Type) := mkPlatform {
  has_context : bool;
  draw_image : SourceImage -> Placement N -> ImageData;
  read_back : ImageData -> ImageData;
  to_blob : Encoder
}.
Arguments has_context {N}.
Arguments draw_image {N}.
Arguments read_back {N}.
Arguments to_blob {N}.

Section Render.
Context {N : Type} `{JsNumber N}.

(** The tone-mapping [switch]; returns the pattern cache and the pixels
    put back on the canvas. *)
Definition tone_map (cache : PatternCache) (options : RenderOptions) (img : ImageData)
    : PatternCache * ImageData :=
  match toneMode options with
  | Original => (cache, img)
  | Binary => (cache, applyBinaryThreshold img (threshold options))
  | Sampled => applySampledMonochrome cache img (sampleDensity options) (threshold options)
  end.

(** The tail of [renderToCupCanvas] from [baseImageData] on. *)
Definition export_stage (to_blob : Encoder) (canvas base : ImageData) (options : RenderOptions)
    : list EncodeCall * Outcome Blob :=
  let maxBytes := with_default MAX_UPLOAD_BYTES (maxBytes options) in
  match targetFormat options with
  | Some Png =>
      let '(calls, result) := exportPngWithQuantization to_blob base maxBytes in
      (calls, match result with
              | Some blob => Ok blob
              | None => Throw (PngOverBudget (js_round (inject_Z maxBytes / 1024)))
              end)
  | _ => exportWithCompression to_blob canvas maxBytes
  end.

Definition renderToCupCanvas (platform : Platform N) (cache : PatternCache)
    (image : SourceImage) (options : RenderOptions)
    : PatternCache * (list EncodeCall * Outcome Blob) :=
  if negb (has_context platform) then (cache, ([], Throw CanvasUnsupported)) else
  let placement := place_image (fit options) (image_width image) (image_height image) in
  let drawn := draw_image platform image placement in
  let '(cache', canvas) :=
    match toneMode options with
    | Original => (cache, drawn)
    | _ => tone_map cache options drawn
    end in
  let base := read_back platform canvas in
  (cache', export_stage (to_blob platform) canvas base options).

End Render.

(* ------------------------------------------------------------------ *)
(** ** The backend base URL ([resolveApiRoot], [src/unnamed/part_002], lines 1-13) *)

(** JS strings as UTF-16 code units. *)
Definition js_string := list Z.

Definition utf16_of (s : string) : js_string :=
  map (fun c => Z.of_nat (nat_of_ascii c)) (list_ascii_of_string s).

(** WhiteSpace and LineTerminator code points, as [String.prototype.trim]
    removes them. *)
Definition is_js_whitespace (c : Z) : bool :=
  (c =? 9) || (c =? 10) || (c =? 11) || (c =? 12) || (c =? 13) || (c =? 32)
  || (c =? 160) || (c =? 5760) || ((8192 <=? c) && (c <=? 8202))
  || (c =? 8232) || (c =? 8233) || (c =? 8239) || (c =? 8287)
  || (c =? 12288) || (c =? 65279).

Fixpoint trim_start (s : js_string) : js_string :=
  match s with
  | [] => []
  | c :: s' => if is_js_whitespace c then trim_start s' else s
  end.

(** [s.trim()] *)
Definition js_trim (s : js_string) : js_string := rev (trim_start (rev (trim_start s))).

(** [s.replace(/\/$/, '')]: [$] without the [m] flag matches only at the
    end of the input, so at most one final ['/'] (code unit 47) goes. *)
Definition strip_trailing_slash (s : js_string) : js_string :=
  match rev s with
  | c :: r => if c =? 47 then rev r else s
  | [] => s
  end.

(** [resolveApiRoot()]: [env] is [import.meta.env.VITE_API_BASE] (a string
    or [undefined]); [origin] is [window.location.origin] when [window] is
    defined. *)
Definition resolveApiRoot (env origin : option js_string) : js_string :=
  let envBase := strip_trailing_slash (js_trim (with_default [] env)) in
  match envBase with
  | _ :: _ => envBase
  | [] =>
      match origin with
      | Some o => strip_trailing_slash o
      | None => []
      end
  end.

(** [apiRoot ? `${apiRoot}/api` : '/api'] *)
Definition BACKEND_API_BASE (env origin : option js_string) : js_string :=
  let apiRoot := resolveApiRoot env origin in
  match apiRoot with
  | [] => utf16_of "/api"
  | _ :: _ => apiRoot ++ utf16_of "/api"
  end.

(* ------------------------------------------------------------------ *)
(** * Properties stated about the program *)

(** The exact luminance the spec states, [0.299 R + 0.587 G + 0.114 B]. *)
Definition luminance_spec (p : Pixel) : Q :=
  ((299 # 1000) * inject_Z (px_r p) + (587 # 1000) * inject_Z (px_g p) + (114 # 1000) * inject_Z (px_b p))%Q.

(** Binary threshold as the spec words it: compare the exact luminance
    with the threshold itself. *)
Definition binary_threshold_spec_holds (img : ImageData) (t : Q) : Prop :=
  forall i p, img_data img !! i = Some p ->
    img_data (applyBinaryThreshold (N:=spec_float) img (Some t)) !! i =
      Some (set_rgb (if Qle_bool t (luminance_spec p) then 255 else 0) p).

(** Every colour channel is 0 or 255. *)
Definition is_black_or_white (p : Pixel) : Prop :=
  (px_r p = 0 \/ px_r p = 255) /\ (px_g p = 0 \/ px_g p = 255) /\ (px_b p = 0 \/ px_b p = 255).

(** The colour channels are bytes, as in a [Uint8ClampedArray]. *)
Definition rgb_bytes (p : Pixel) : Prop := is_byte (px_r p) /\ is_byte (px_g p) /\ is_byte (px_b p).

(** A blob within the byte budget. *)
Definition fits (maxBytes : Z) (b : Blob) : bool := blob_size b <=? maxBytes.

(** Position and blob of the first produced blob within budget. *)
Fixpoint first_fit (maxBytes : Z) (outs : list (option Blob)) : option (nat * Blob) :=
  match outs with
  | [] => None
  | Some b :: rest =>
      if fits maxBytes b then Some (0%nat, b)
      else option_map (fun '(i, b') => (S i, b')) (first_fit maxBytes rest)
  | None :: rest => option_map (fun '(i, b') => (S i, b')) (first_fit maxBytes rest)
  end.

(** The last blob produced at all. *)
Fixpoint last_produced (outs : list (option Blob)) : option Blob :=
  match outs with
  | [] => None
  | Some b :: rest => match last_produced rest with Some b' => Some b' | None => Some b end
  | None :: rest => last_produced rest
  end.

(** The blobs and the encoder calls of the lossy ladder and of the
    quantised PNG ladder when no attempt is skipped early. *)
Definition lossy_outputs (to_blob : Encoder) (canvas : ImageData) (todo : list Attempt) :=
  map (fun a => to_blob canvas (attempt_type a) (attempt_quality a)) todo.

Definition lossy_calls (canvas : ImageData) (todo : list Attempt) :=
  map (fun a => mkEncodeCall canvas (attempt_type a) (attempt_quality a)) todo.

Definition png_outputs (to_blob : Encoder) (base : ImageData) (steps : list Z) :=
  map (fun s => to_blob (quantized_working base s) "image/png" None) steps.

Definition png_calls (base : ImageData) (steps : list Z) :=
  map (fun s => mkEncodeCall (quantized_working base s) "image/png" None) steps.

(** A blob over the budget, or none at all. *)
Definition over_budget_or_none (maxBytes : Z) (o : option Blob) : Prop :=
  match o with Some b => maxBytes < blob_size b | None => True end.

(** The budget property on success as the spec words it. *)
Definition success_within_budget {N} `{JsNumber N} (platform : Platform N) (cache : PatternCache)
    (image : SourceImage) (options : RenderOptions) : Prop :=
  forall cache' calls b,
    renderToCupCanvas platform cache image options = (cache', (calls, Ok b)) ->
    blob_size b <= with_default MAX_UPLOAD_BYTES (maxBytes options).

(** An encoder whose every blob is 300000 bytes, over the default budget
    of 204800. *)
Definition oversized_platform : Platform spec_float :=
  {| has_context := true;
     draw_image := fun _ _ => mkImageData 0 0 [];
     read_back := fun img => img;
     to_blob := fun _ type _ => Some (mkBlob type 300000) |}.

(** Default options: no tone mapping, lossy export, default budget. *)
Definition lossy_options : RenderOptions := mkRenderOptions Original None None Contain None None.

(** The contain-fit property the spec states, in a number model. *)
Definition contain_fits {N} `{JsNumber N} (srcW srcH : Z) : bool :=
  let p := place_image (N:=N) Contain srcW srcH in
  num_leb (drawWidth p) (num_of_Z CUP_WIDTH)
  && num_leb (drawHeight p) (num_of_Z CUP_HEIGHT)
  && (num_eqb (drawWidth p) (num_of_Z CUP_WIDTH) || num_eqb (drawHeight p) (num_of_Z CUP_HEIGHT)).

(** The comparator order the spec describes: ascending distance, ties
    broken by ascending angle. *)
Definition distance_then_angle (a b : Entry) : Prop :=
  (distance a < distance b)%Q \/
  (distance a == distance b /\ angle_compare (angle a) (angle b) <> Gt)%Q.

(** The entry the two nested loops build for block-local index [i]. *)
Definition entry_of (width height i : nat) : Entry :=
  make_entry width height (i mod width) (i / width).

(** The pixel order of the pattern, on block-local indices. *)
Definition pattern_order (width height i j : nat) : Prop :=
  distance_then_angle (entry_of width height i) (entry_of width height j).

(** Every cached pattern is the pattern of the shape its key names. *)
Definition cache_ok (cache : PatternCache) : Prop :=
  forall key p, cache !! key = Some p ->
  exists width height, key = pattern_key width height /\ p = compute_pattern width height.

(** The order the insertion sort keeps between neighbours. *)
Definition entry_le (a b : Entry) : Prop := entry_compare a b <> Gt.

(** No letter [x] in a string: the decimal digits of a key half. *)
Fixpoint no_x (s : string) : Prop :=
  match s with
  | EmptyString => True
  | String c s' => c <> "x"%char /\ no_x s'
  end.


(** The block shapes a sampled run can ask for. *)
Definition block_shape_ok (blockSize width height bw bh : nat) : Prop :=
  (bw = blockSize \/ bw = width mod blockSize)%nat /\ (bh = blockSize \/ bh = height mod blockSize)%nat.

(* ------------------------------------------------------------------ *)
(** * Proofs *)

(** ** Binary64 facts *)

Lemma lit_0_299 : num_lit (N:=spec_float) 299 1000 = S754_finite false 5386305154335113 (-54).
Proof. vm_compute. reflexivity. Qed.

Lemma lit_0_587 : num_lit (N:=spec_float) 587 1000 = S754_finite false 5287225962532962 (-53).
Proof. vm_compute. reflexivity. Qed.

Lemma lit_0_114 : num_lit (N:=spec_float) 114 1000 = S754_finite false 8214565720323785 (-56).
Proof. vm_compute. reflexivity. Qed.

Module F64Facts.
(** [0 <= x] for a double, i.e. not NaN and not below zero. *)
Definition nonneg (x : spec_float) : Prop := SFleb (S754_zero false) x = true.

Lemma shr_1_nonneg mrs : 0 <= shr_m mrs -> 0 <= shr_m (shr_1 mrs).
Proof.
  destruct mrs as [m r s]; simpl.
  destruct m as [|p|p]; [simpl; lia| |lia].
  destruct p; simpl; lia.
Qed.

Lemma iter_shr_1_nonneg (p : positive) mrs : 0 <= shr_m mrs -> 0 <= shr_m (SpecFloat.iter_pos shr_1 p mrs).
Proof.
  revert mrs; induction p as [p IH|p IH|]; intros mrs Hm; simpl;
    auto using shr_1_nonneg.
Qed.

Lemma shr_fexp_nonneg m e l :
  0 <= m -> 0 <= shr_m (fst (shr_fexp F64.prec F64.emax m e l)).
Proof.
  intros Hm. unfold shr_fexp, shr.
  destruct (_ - e) as [|p|p]; simpl;
    try (apply iter_shr_1_nonneg);
    destruct l as [|[]]; simpl; lia.
Qed.

Lemma round_nearest_even_nonneg mx lx : 0 <= mx -> 0 <= round_nearest_even mx lx.
Proof.
  intros H; destruct lx as [|[]]; simpl; try lia.
  destruct (Z.even mx); lia.
Qed.

Lemma binary_round_aux_nonneg mx ex lx :
  0 <= mx -> nonneg (binary_round_aux F64.prec F64.emax false mx ex lx).
Proof.
  intros Hm. unfold binary_round_aux.
  pose proof (shr_fexp_nonneg mx ex lx Hm) as H1.
  destruct (shr_fexp F64.prec F64.emax mx ex lx) as [mrs' e'] eqn:E1; simpl in H1.
  pose proof (shr_fexp_nonneg (round_nearest_even (shr_m mrs') (loc_of_shr_record mrs')) e' loc_Exact
                (round_nearest_even_nonneg _ _ H1)) as H2.
  destruct (shr_fexp F64.prec F64.emax _ e' loc_Exact) as [mrs'' e''] eqn:E2; simpl in H2.
  unfold nonneg.
  destruct (shr_m mrs'') as [|p|p]; [reflexivity| |lia].
  destruct (e'' <=? F64.emax - F64.prec); reflexivity.
Qed.

Lemma of_Z_nonneg z : 0 <= z -> nonneg (F64.of_Z z).
Proof.
  intros Hz. unfold F64.of_Z, binary_normalize.
  destruct z as [|p|p]; [reflexivity| |lia].
  unfold binary_round.
  destruct (shl_align _ _ _) as [mz ez].
  apply binary_round_aux_nonneg; lia.
Qed.

Lemma mul_nonneg x m e :
  nonneg x -> nonneg (SFmul F64.prec F64.emax x (S754_finite false m e)).
Proof.
  unfold nonneg; intros Hx.
  destruct x as [s|s| |s mx ex]; try destruct s; try discriminate; simpl; try reflexivity.
  apply binary_round_aux_nonneg; lia.
Qed.

Lemma add_nonneg x y :
  nonneg x -> nonneg y -> nonneg (SFadd F64.prec F64.emax x y).
Proof.
  unfold nonneg; intros Hx Hy.
  destruct x as [sx|sx| |sx mx ex]; try destruct sx; try discriminate;
  destruct y as [sy|sy| |sy my ey]; try destruct sy; try discriminate;
    simpl; try reflexivity.
  unfold binary_normalize.
  destruct (shl_align mx ex (Z.min ex ey)) as [a ea].
  destruct (shl_align my ey (Z.min ex ey)) as [b eb]. simpl.
  unfold binary_round. destruct (shl_align _ _ _) as [mz ez].
  apply binary_round_aux_nonneg; lia.
Qed.
End F64Facts.

(** ** Binary threshold *)

Lemma luminance_nonneg (p : Pixel) :
  0 <= px_r p -> 0 <= px_g p -> 0 <= px_b p -> F64Facts.nonneg (luminance (N:=spec_float) p).
Proof.
  intros Hr Hg Hb. unfold luminance.
  rewrite lit_0_299, lit_0_587, lit_0_114.
  apply F64Facts.add_nonneg; [apply F64Facts.add_nonneg|];
    apply F64Facts.mul_nonneg, F64Facts.of_Z_nonneg; assumption.
Qed.

Lemma luminance_set_rgb {N} `{JsNumber N} (v : Z) (p : Pixel) :
  luminance (set_rgb v p) = luminance (mkPixel v v v 0).
Proof. reflexivity. Qed.

(** Every byte value satisfies a boolean test checked on all 256 of them. *)
Lemma forall_bytes (f : Z -> bool) :
  forallb f (map Z.of_nat (seq 0 256)) = true -> forall v, 0 <= v <= 255 -> f v = true.
Proof.
  intros Hall v Hv. rewrite forallb_forall in Hall. apply Hall.
  apply in_map_iff. exists (Z.to_nat v). split; [lia|]. apply in_seq. lia.
Qed.

(** White is above every limit, black below every positive limit. *)
Lemma white_above_limit (limit : Z) :
  0 <= limit <= 255 -> num_leb (num_of_Z limit) (luminance (N:=spec_float) (mkPixel 255 255 255 0)) = true.
Proof.
  apply (forall_bytes (fun l => SFleb (F64.of_Z l) (luminance (N:=spec_float) (mkPixel 255 255 255 0)))).
  vm_compute. reflexivity.
Qed.

Lemma black_below_limit (limit : Z) :
  1 <= limit <= 255 -> num_leb (num_of_Z limit) (luminance (N:=spec_float) (mkPixel 0 0 0 0)) = false.
Proof.
  intros Hl.
  pose proof (forall_bytes (fun l => (l =? 0) || negb (num_leb (num_of_Z l) (luminance (N:=spec_float) (mkPixel 0 0 0 0)))))
    as H.
  specialize (H ltac:(vm_compute; reflexivity) limit ltac:(lia)).
  cbv beta in H. rewrite (proj2 (Z.eqb_neq limit 0) ltac:(lia)), orb_false_l in H.
  apply negb_true_iff in H. exact H.
Qed.

Lemma threshold_limit_range (t : option Q) : 0 <= threshold_limit t <= 255.
Proof. unfold threshold_limit. lia. Qed.

Lemma F64_of_Z_0 : F64.of_Z 0 = S754_zero false.
Proof. reflexivity. Qed.

(** A black pixel with threshold [0.4]: the code rounds the threshold to 0
    first and paints the pixel white. *)
Lemma binary_threshold_rounds_limit :
  ~ (forall img t, binary_threshold_spec_holds img t).
Proof.
  intros Hall.
  specialize (Hall (mkImageData 1 1 [mkPixel 0 0 0 255]) (2 # 5) 0%nat (mkPixel 0 0 0 255) eq_refl).
  vm_compute in Hall. discriminate.
Qed.

(** Pixel (0, 72, 24) has exact luminance 45, but its binary64 luminance is
    44.99999999999999: at threshold 45 the code paints it black. *)
Lemma binary_threshold_float_boundary :
  img_data (applyBinaryThreshold (N:=spec_float) (mkImageData 1 1 [mkPixel 0 72 24 255]) (Some (45 # 1)))
    = [mkPixel 0 0 0 255]
  /\ luminance_spec (mkPixel 0 72 24 255) == 45 # 1.
Proof. split; [vm_compute; reflexivity | reflexivity]. Qed.

(** C5 (amended): binary threshold is pointwise; the limit is the threshold
    rounded and clamped to [0, 255]; L is computed in the number model
    (binary64 in the browser) left to right; alpha is kept. *)
Theorem binary_threshold_pointwise {N} `{JsNumber N} (img : ImageData) (t : option Q) (i : nat) :
  img_data (applyBinaryThreshold img t) !! i =
    (fun p =>
       let v := if num_leb (num_of_Z (Z.max 0 (Z.min 255 (js_round (with_default (170 # 1) t)))))
                            (luminance p) then 255 else 0 in
       mkPixel v v v (px_a p)) <$> img_data img !! i
  /\ img_width (applyBinaryThreshold img t) = img_width img
  /\ img_height (applyBinaryThreshold img t) = img_height img.
Proof.
  unfold applyBinaryThreshold; simpl. split; [|split; reflexivity].
  rewrite list_lookup_fmap. reflexivity.
Qed.

Lemma binary_pixel_idem (limit : Z) (p : Pixel) :
  0 <= limit <= 255 -> rgb_bytes p ->
  binary_pixel (N:=spec_float) limit (binary_pixel (N:=spec_float) limit p) = binary_pixel (N:=spec_float) limit p.
Proof.
  intros Hl (Hr & Hg & Hb). unfold is_byte in *.
  destruct (num_leb (N:=spec_float) (num_of_Z limit) (luminance p)) eqn:E.
  - assert (Hp : binary_pixel (N:=spec_float) limit p = set_rgb 255 p)
      by (unfold binary_pixel; cbv zeta; rewrite E; reflexivity).
    rewrite Hp. unfold binary_pixel. rewrite luminance_set_rgb, white_above_limit by lia.
    reflexivity.
  - assert (Hp : binary_pixel (N:=spec_float) limit p = set_rgb 0 p)
      by (unfold binary_pixel; cbv zeta; rewrite E; reflexivity).
    rewrite Hp. unfold binary_pixel. rewrite luminance_set_rgb.
    destruct (Z.eq_dec limit 0) as [->|Hne].
    + exfalso. pose proof (luminance_nonneg p ltac:(lia) ltac:(lia) ltac:(lia)) as Hn.
      unfold F64Facts.nonneg in Hn. change (SFleb (F64.of_Z 0) (luminance p) = false) in E.
      rewrite F64_of_Z_0 in E. congruence.
    + rewrite black_below_limit by lia. reflexivity.
Qed.

(** C6: binary threshold output is black or white, and a second pass with
    the same threshold changes nothing. *)
Theorem binary_threshold_idempotent (img : ImageData) (t : option Q) :
  Forall rgb_bytes (img_data img) ->
  Forall is_black_or_white (img_data (applyBinaryThreshold (N:=spec_float) img t))
  /\ applyBinaryThreshold (N:=spec_float) (applyBinaryThreshold (N:=spec_float) img t) t
     = applyBinaryThreshold (N:=spec_float) img t.
Proof.
  intros Hbytes. split.
  - unfold applyBinaryThreshold; simpl. apply Forall_map, Forall_true. intros p.
    unfold binary_pixel, is_black_or_white, set_rgb; cbv zeta.
    case_match; cbn [px_r px_g px_b]; lia.
  - unfold applyBinaryThreshold at 1 2 3; simpl. unfold with_data; simpl. f_equal.
    rewrite map_map. apply map_ext_in. intros p Hp.
    apply binary_pixel_idem; [apply threshold_limit_range|].
    rewrite Forall_forall in Hbytes. apply Hbytes. by apply list_elem_of_In.
Qed.

Lemma binary_threshold_idempotent_witness :
  Forall rgb_bytes [mkPixel 0 72 24 255; mkPixel 200 10 3 0]
  /\ Forall is_black_or_white (img_data (applyBinaryThreshold (N:=spec_float) (mkImageData 2 1 [mkPixel 0 72 24 255; mkPixel 200 10 3 0]) (Some (45 # 1))))
  /\ applyBinaryThreshold (N:=spec_float) (applyBinaryThreshold (N:=spec_float) (mkImageData 2 1 [mkPixel 0 72 24 255; mkPixel 200 10 3 0]) (Some (45 # 1))) (Some (45 # 1))
     = applyBinaryThreshold (N:=spec_float) (mkImageData 2 1 [mkPixel 0 72 24 255; mkPixel 200 10 3 0]) (Some (45 # 1)).
Proof.
  assert (H : Forall rgb_bytes [mkPixel 0 72 24 255; mkPixel 200 10 3 0])
    by (repeat constructor; unfold is_byte; simpl; lia).
  split; [exact H|]. apply (binary_threshold_idempotent (mkImageData 2 1 _) _ H).
Defined.

(** ** Rounding *)

Lemma js_round_div (v s : Z) : 0 < s -> js_round (inject_Z v / inject_Z s) = (2 * v + s) / (2 * s).
Proof.
  intros Hs. unfold js_round.
  rewrite (Qfloor_comp _ ((2 * v + s) # Z.to_pos (2 * s))).
  - unfold Qfloor. rewrite (Z2Pos.id (2 * s)) by lia. reflexivity.
  - rewrite (Qmake_Qdiv (2 * v + s)), Z2Pos.id by lia.
    rewrite !inject_Z_plus, !inject_Z_mult.
    assert (Hs' : ~ inject_Z s == 0) by (unfold Qeq; simpl; lia).
    field. exact Hs'.
Qed.




(** ** Quantization *)

Lemma quantize_channel_nearest (v s : Z) :
  0 < s -> 2 * Z.abs (v - js_round (inject_Z v / inject_Z s) * s) <= s.
Proof.
  intros Hs. rewrite js_round_div by lia.
  pose proof (Z.div_mod (2 * v + s) (2 * s) ltac:(lia)) as Hd.
  pose proof (Z.mod_pos_bound (2 * v + s) (2 * s) ltac:(lia)) as Hm.
  remember ((2 * v + s) / (2 * s)) as k. remember ((2 * v + s) mod (2 * s)) as r.
  assert (E : 2 * (v - k * s) = r - s) by lia.
  destruct (Z.abs_spec (v - k * s)) as [[_ ->]|[_ ->]]; lia.
Qed.

Lemma quantize_channel_1 (v : Z) : 0 <= v <= 255 -> quantize_channel 1 v = v.
Proof.
  intros Hv. unfold quantize_channel.
  rewrite js_round_div by lia.
  replace ((2 * v + 1) / (2 * 1)) with v; [lia|].
  replace (2 * v + 1) with (1 + v * 2) by lia. rewrite Z.div_add by lia. reflexivity.
Qed.

(** C7: quantization rounds each colour channel to the nearest multiple of
    the step, clamped to 255 (a non-positive step divides by 1 and changes no
    byte), and never touches alpha. *)
Theorem quantize_colors_spec (data : list Pixel) (step : Z) :
  (0 < step -> forall i p, data !! i = Some p ->
     quantizeColors data step !! i =
       Some (mkPixel (Z.min 255 (js_round (inject_Z (px_r p) / inject_Z step) * step))
                     (Z.min 255 (js_round (inject_Z (px_g p) / inject_Z step) * step))
                     (Z.min 255 (js_round (inject_Z (px_b p) / inject_Z step) * step))
                     (px_a p)))
  /\ (0 < step -> forall v, 2 * Z.abs (v - js_round (inject_Z v / inject_Z step) * step) <= step)
  /\ (step <= 0 -> Forall rgb_bytes data -> quantizeColors data step = data)
  /\ map px_a (quantizeColors data step) = map px_a data
  /\ quantize_channel 16 20 = 16 /\ quantize_channel 16 130 = 128.
Proof.
  split; [|split; [|split; [|split]]].
  - intros Hs i p Hp. unfold quantizeColors.
    rewrite (proj2 (Z.leb_gt step 0) Hs), list_lookup_fmap, Hp. reflexivity.
  - intros Hs v. apply quantize_channel_nearest, Hs.
  - intros Hs Hbytes. unfold quantizeColors. rewrite (proj2 (Z.leb_le step 0) Hs).
    induction Hbytes as [|p l (Hr & Hg & Hb) _ IH]; [reflexivity|].
    simpl. rewrite IH. unfold quantize_pixel, is_byte in *.
    rewrite !quantize_channel_1 by lia. destruct p; reflexivity.
  - unfold quantizeColors. rewrite map_map. reflexivity.
  - split; reflexivity.
Qed.

Lemma quantize_colors_spec_witness :
  Forall rgb_bytes [mkPixel 20 130 255 7]
  /\ quantizeColors [mkPixel 20 130 255 7] 16 = [mkPixel 16 128 255 7]
  /\ quantizeColors [mkPixel 20 130 255 7] 0 = [mkPixel 20 130 255 7]
  /\ 2 * Z.abs (20 - js_round (inject_Z 20 / inject_Z 16) * 16) <= 16.
Proof.
  assert (Hb : Forall rgb_bytes [mkPixel 20 130 255 7])
    by (repeat constructor; unfold is_byte; simpl; lia).
  destruct (quantize_colors_spec [mkPixel 20 130 255 7] 16) as [H16 [Hn _]].
  destruct (quantize_colors_spec [mkPixel 20 130 255 7] 0) as [_ [_ [H0 _]]].
  split; [exact Hb|]. split; [|split].
  - pose proof (H16 ltac:(lia) 0%nat _ eq_refl) as H. vm_compute in H. vm_compute. congruence.
  - exact (H0 ltac:(lia) Hb).
  - exact (Hn ltac:(lia) 20).
Defined.

(** ** Threshold and density clamping *)



Lemma block_size_range (density : option NumArg) (bs : Z) :
  block_size density = Some bs -> 2 <= bs <= 32.
Proof.
  unfold block_size. destruct (with_default _ density); intros E; inversion E; subst; lia.
Qed.





(** ** Export ladders *)

Lemma compression_loop_spec (to_blob : Encoder) (canvas : ImageData) (maxBytes : Z)
    (todo : list Attempt) (candidate : option Blob) :
  compression_loop to_blob canvas maxBytes todo candidate =
    match first_fit maxBytes (lossy_outputs to_blob canvas todo) with
    | Some (i, b) => (lossy_calls canvas (firstn (S i) todo), Ok b)
    | None =>
        (lossy_calls canvas todo,
         match last_produced (lossy_outputs to_blob canvas todo), candidate with
         | Some b, _ => Ok b
         | None, Some c => Ok c
         | None, None => Throw ExportFailed
         end)
    end.
Proof.
  revert candidate. induction todo as [|a rest IH]; intros candidate; [reflexivity|].
  simpl. destruct (to_blob canvas (attempt_type a) (attempt_quality a)) as [b|] eqn:E.
  - unfold fits. destruct (blob_size b <=? maxBytes) eqn:F; [reflexivity|].
    rewrite IH. destruct (first_fit maxBytes (lossy_outputs to_blob canvas rest)) as [[i b']|];
      simpl; [reflexivity|].
    destruct (last_produced _); reflexivity.
  - rewrite IH. destruct (first_fit maxBytes (lossy_outputs to_blob canvas rest)) as [[i b']|];
      simpl; reflexivity.
Qed.

Lemma quantization_loop_spec (to_blob : Encoder) (base : ImageData) (maxBytes : Z)
    (todo : list Z) (fallback : option Blob) :
  (forall f, fallback = Some f -> maxBytes < blob_size f) ->
  quantization_loop to_blob base maxBytes todo fallback =
    match first_fit maxBytes (png_outputs to_blob base todo) with
    | Some (i, b) => (png_calls base (firstn (S i) todo), Some b)
    | None => (png_calls base todo, None)
    end.
Proof.
  revert fallback. induction todo as [|s rest IH]; intros fallback Hf.
  - simpl. destruct fallback as [f|]; [|reflexivity].
    specialize (Hf f eq_refl). destruct (blob_size f <=? maxBytes) eqn:E; [lia|reflexivity].
  - simpl. destruct (to_blob (quantized_working base s) "image/png" None) as [b|] eqn:E.
    + unfold fits. destruct (blob_size b <=? maxBytes) eqn:F; [reflexivity|].
      rewrite IH by (intros f [= <-]; lia).
      destruct (first_fit maxBytes (png_outputs to_blob base rest)) as [[i b']|]; reflexivity.
    + rewrite IH by exact Hf.
      destruct (first_fit maxBytes (png_outputs to_blob base rest)) as [[i b']|]; reflexivity.
Qed.

Lemma first_fit_fits maxBytes outs i b :
  first_fit maxBytes outs = Some (i, b) ->
  outs !! i = Some (Some b) /\ blob_size b <= maxBytes
  /\ (forall j o, (j < i)%nat -> outs !! j = Some o ->
        match o with Some b' => maxBytes < blob_size b' | None => True end).
Proof.
  revert i. induction outs as [|o rest IH]; intros i H; [discriminate|].
  destruct o as [b0|]; simpl in H.
  - unfold fits in H. destruct (blob_size b0 <=? maxBytes) eqn:F.
    + injection H as <- <-. split; [reflexivity|]. split; [lia|]. intros j o Hj. lia.
    + destruct (first_fit maxBytes rest) as [[i' b']|] eqn:E; [|discriminate].
      injection H as <- <-. destruct (IH i' eq_refl) as (H1 & H2 & H3).
      split; [exact H1|]. split; [exact H2|].
      intros [|j] o Hj Ho; simpl in Ho.
      * injection Ho as <-. lia.
      * apply (H3 j o); [lia|exact Ho].
  - destruct (first_fit maxBytes rest) as [[i' b']|] eqn:E; [|discriminate].
    injection H as <- <-. destruct (IH i' eq_refl) as (H1 & H2 & H3).
    split; [exact H1|]. split; [exact H2|].
    intros [|j] o Hj Ho; simpl in Ho.
    * injection Ho as <-. exact I.
    * apply (H3 j o); [lia|exact Ho].
Qed.

Lemma first_fit_none maxBytes outs :
  first_fit maxBytes outs = None ->
  Forall (fun o => match o with Some b => maxBytes < blob_size b | None => True end) outs.
Proof.
  induction outs as [|o rest IH]; intros H; constructor.
  - destruct o as [b|]; [|exact I]. simpl in H. unfold fits in H.
    destruct (blob_size b <=? maxBytes) eqn:F; [discriminate|lia].
  - apply IH. destruct o as [b|]; simpl in H; [unfold fits in H; destruct (_ <=? _)|];
      try discriminate; destruct (first_fit maxBytes rest) as [[]|]; first [reflexivity | discriminate].
Qed.

(** C2: the lossy ladder tries PNG, then JPEG at 0.95 down to 0.30 in steps
    of 0.05, in that order; it stops at the first blob within budget and
    returns it; otherwise it makes every attempt and returns the last blob
    produced, and throws only when no attempt produced a blob. *)
Theorem lossy_ladder_spec (to_blob : Encoder) (canvas : ImageData) (maxBytes : Z) :
  head attempts = Some (mkAttempt "image/png" None)
  /\ tail attempts = map (fun k => mkAttempt "image/jpeg" (Some ((95 - 5 * Z.of_nat k) # 100))) (seq 0 14)
  /\ exportWithCompression to_blob canvas maxBytes =
     match first_fit maxBytes (lossy_outputs to_blob canvas attempts) with
     | Some (i, b) => (lossy_calls canvas (firstn (S i) attempts), Ok b)
     | None =>
         (lossy_calls canvas attempts,
          match last_produced (lossy_outputs to_blob canvas attempts) with
          | Some b => Ok b
          | None => Throw ExportFailed
          end)
     end.
Proof.
  split; [reflexivity|]. split; [reflexivity|].
  unfold exportWithCompression. rewrite compression_loop_spec.
  destruct (first_fit _ _) as [[i b]|]; [reflexivity|].
  destruct (last_produced _); reflexivity.
Qed.

(** C3: the lossless ladder tries the 14 quantization steps in ascending
    order, returns the first PNG within budget, and otherwise throws the
    over-budget error carrying [Math.round(maxBytes / 1024)]; it never
    returns a blob over budget. *)
Theorem lossless_ladder_spec (to_blob : Encoder) (canvas base : ImageData) (options : RenderOptions) :
  targetFormat options = Some Png ->
  png_steps = [0; 8; 16; 24; 32; 40; 48; 64; 80; 96; 112; 128; 160; 192]
  /\ length png_steps = 14%nat /\ StronglySorted Z.lt png_steps
  /\ export_stage to_blob canvas base options =
     (let maxBytes := with_default MAX_UPLOAD_BYTES (maxBytes options) in
      match first_fit maxBytes (png_outputs to_blob base png_steps) with
      | Some (i, b) => (png_calls base (firstn (S i) png_steps), Ok b)
      | None => (png_calls base png_steps, Throw (PngOverBudget (js_round (inject_Z maxBytes / 1024))))
      end)
  /\ (forall calls b, export_stage to_blob canvas base options = (calls, Ok b) ->
        blob_size b <= with_default MAX_UPLOAD_BYTES (maxBytes options)).
Proof.
  intros Hpng.
  assert (Hstage : export_stage to_blob canvas base options =
     (let maxBytes := with_default MAX_UPLOAD_BYTES (maxBytes options) in
      match first_fit maxBytes (png_outputs to_blob base png_steps) with
      | Some (i, b) => (png_calls base (firstn (S i) png_steps), Ok b)
      | None => (png_calls base png_steps, Throw (PngOverBudget (js_round (inject_Z maxBytes / 1024))))
      end)).
  { unfold export_stage. rewrite Hpng. unfold exportPngWithQuantization.
    rewrite quantization_loop_spec by discriminate. cbv zeta.
    destruct (first_fit _ _) as [[i b]|]; reflexivity. }
  split; [reflexivity|]. split; [reflexivity|]. split.
  { unfold png_steps. repeat constructor; lia. }
  split; [exact Hstage|].
  intros calls b Hb. rewrite Hstage in Hb. cbv zeta in Hb.
  destruct (first_fit _ _) as [[i b']|] eqn:E; [|discriminate].
  injection Hb as _ <-. apply (first_fit_fits _ _ _ _ E).
Qed.

Lemma lossless_ladder_spec_witness :
  targetFormat (mkRenderOptions Original None None Contain (Some 1) (Some Png)) = Some Png
  /\ export_stage (fun _ _ _ => Some (mkBlob "image/png" 5)) (mkImageData 0 0 []) (mkImageData 0 0 [])
       (mkRenderOptions Original None None Contain (Some 1) (Some Png))
     = (png_calls (mkImageData 0 0 []) png_steps, Throw (PngOverBudget 0)).
Proof.
  split; [reflexivity|].
  destruct (lossless_ladder_spec (fun _ _ _ => Some (mkBlob "image/png" 5)) (mkImageData 0 0 [])
              (mkImageData 0 0 []) (mkRenderOptions Original None None Contain (Some 1) (Some Png))
              eq_refl) as (_ & _ & _ & H & _).
  rewrite H. vm_compute. reflexivity.
Defined.

(** ** Successful renders *)

Lemma export_stage_ok (to_blob : Encoder) (canvas base : ImageData) (options : RenderOptions) calls b :
  export_stage to_blob canvas base options = (calls, Ok b) ->
  let budget := with_default MAX_UPLOAD_BYTES (maxBytes options) in
  blob_size b <= budget
  \/ (targetFormat options <> Some Png
      /\ calls = lossy_calls canvas attempts
      /\ Forall (over_budget_or_none budget) (lossy_outputs to_blob canvas attempts)
      /\ last_produced (lossy_outputs to_blob canvas attempts) = Some b).
Proof.
  unfold export_stage. cbv zeta.
  set (budget := with_default MAX_UPLOAD_BYTES (maxBytes options)).
  destruct (targetFormat options) as [[]|] eqn:Ef.
  - unfold exportPngWithQuantization. rewrite quantization_loop_spec by discriminate.
    destruct (first_fit _ _) as [[i b']|] eqn:E; intros H; [|discriminate].
    injection H as _ <-. left. apply (first_fit_fits _ _ _ _ E).
  - unfold exportWithCompression. rewrite compression_loop_spec.
    destruct (first_fit _ _) as [[i b']|] eqn:E; intros H.
    + injection H as _ <-. left. apply (first_fit_fits _ _ _ _ E).
    + right. destruct (last_produced _) eqn:El; [|discriminate].
      injection H as <- <-. split; [discriminate|]. split; [reflexivity|].
      split; [apply first_fit_none, E|reflexivity].
  - unfold exportWithCompression. rewrite compression_loop_spec.
    destruct (first_fit _ _) as [[i b']|] eqn:E; intros H.
    + injection H as _ <-. left. apply (first_fit_fits _ _ _ _ E).
    + right. destruct (last_produced _) eqn:El; [|discriminate].
      injection H as <- <-. split; [discriminate|]. split; [reflexivity|].
      split; [apply first_fit_none, E|reflexivity].
Qed.

(** C1 counterexample: the lossy ladder returns its last, over-budget blob. *)
Lemma render_success_over_budget :
  renderToCupCanvas oversized_platform ∅ (mkSourceImage 100 100) lossy_options
    = (∅, (lossy_calls (mkImageData 0 0 []) attempts, Ok (mkBlob "image/jpeg" 300000)))
  /\ ~ success_within_budget oversized_platform ∅ (mkSourceImage 100 100) lossy_options.
Proof.
  assert (E : renderToCupCanvas oversized_platform ∅ (mkSourceImage 100 100) lossy_options
    = (∅, (lossy_calls (mkImageData 0 0 []) attempts, Ok (mkBlob "image/jpeg" 300000))))
    by (vm_compute; reflexivity).
  split; [exact E|]. intros H. specialize (H _ _ _ E). vm_compute in H. apply H. reflexivity.
Qed.

(** C1 (amended): a successful render is within budget, except on the lossy
    path when every attempt produced no blob or an over-budget one: then the
    blob is the last one produced. *)
Theorem render_success_budget {N} `{JsNumber N} (platform : Platform N) (cache : PatternCache)
    (image : SourceImage) (options : RenderOptions) cache' calls (b : Blob) :
  renderToCupCanvas platform cache image options = (cache', (calls, Ok b)) ->
  let budget := with_default MAX_UPLOAD_BYTES (maxBytes options) in
  blob_size b <= budget
  \/ (targetFormat options <> Some Png
      /\ exists canvas, calls = lossy_calls canvas attempts
         /\ Forall (over_budget_or_none budget) (lossy_outputs (to_blob platform) canvas attempts)
         /\ last_produced (lossy_outputs (to_blob platform) canvas attempts) = Some b).
Proof.
  unfold renderToCupCanvas. destruct (has_context platform); simpl; [|discriminate].
  destruct (match toneMode options with
            | Original => _
            | _ => _
            end) as [c canvas].
  intros Hr. injection Hr as _ Hr.
  destruct (export_stage_ok _ _ _ _ _ _ Hr) as [Hle|(Hf & Hc & Ho & Hl)]; [left; exact Hle|].
  right. split; [exact Hf|]. exists canvas. auto.
Qed.

Lemma render_success_budget_witness :
  renderToCupCanvas oversized_platform ∅ (mkSourceImage 100 100) lossy_options
    = (∅, (lossy_calls (mkImageData 0 0 []) attempts, Ok (mkBlob "image/jpeg" 300000)))
  /\ (300000 <= MAX_UPLOAD_BYTES
      \/ (targetFormat lossy_options <> Some Png
          /\ exists canvas, lossy_calls (mkImageData 0 0 []) attempts = lossy_calls canvas attempts
             /\ Forall (over_budget_or_none MAX_UPLOAD_BYTES) (lossy_outputs (to_blob oversized_platform) canvas attempts)
             /\ last_produced (lossy_outputs (to_blob oversized_platform) canvas attempts) = Some (mkBlob "image/jpeg" 300000))).
Proof.
  assert (E : renderToCupCanvas oversized_platform ∅ (mkSourceImage 100 100) lossy_options
    = (∅, (lossy_calls (mkImageData 0 0 []) attempts, Ok (mkBlob "image/jpeg" 300000))))
    by (vm_compute; reflexivity).
  split; [exact E|]. exact (render_success_budget _ _ _ _ _ _ _ E).
Defined.

(** ** Fitting *)

(** C8 counterexample: in binary64 a 575x1 image is drawn
    596.0000000000001 pixels wide, and a 137x1 image 595.9999999999999
    wide, so neither side equals the canvas. *)
Lemma contain_fit_binary64_rounding :
  ~ (forall srcW srcH, 0 < srcW -> 0 < srcH -> contain_fits (N:=spec_float) srcW srcH = true)
  /\ F64.to_Q (drawWidth (place_image (N:=spec_float) Contain 575 1)) = 5242471441235969 # 8796093022208
  /\ F64.to_Q (drawWidth (place_image (N:=spec_float) Contain 137 1)) = 5242471441235967 # 8796093022208
  /\ contain_fits (N:=spec_float) 137 1 = false.
Proof.
  split; [|split; [|split]]; [|vm_compute; reflexivity..].
  intros H. specialize (H 575 1 ltac:(lia) ltac:(lia)). vm_compute in H. discriminate.
Qed.

Lemma inject_Z_pos (z : Z) : 0 < z -> (0 < inject_Z z)%Q.
Proof. intros H. unfold Qlt; simpl. lia. Qed.

(** C8 (amended): in exact arithmetic, [contain] draws the image inside the
    canvas, touching it on at least one axis, and centred. *)
Theorem contain_fit_exact (srcW srcH : Z) :
  0 < srcW -> 0 < srcH ->
  let p := place_image (N:=Q) Contain srcW srcH in
  let scale := Qmin (inject_Z CUP_WIDTH / inject_Z srcW) (inject_Z CUP_HEIGHT / inject_Z srcH) in
  drawWidth p == inject_Z srcW * scale /\ drawHeight p == inject_Z srcH * scale
  /\ (drawWidth p <= inject_Z CUP_WIDTH)%Q /\ (drawHeight p <= inject_Z CUP_HEIGHT)%Q
  /\ (drawWidth p == inject_Z CUP_WIDTH \/ drawHeight p == inject_Z CUP_HEIGHT)
  /\ offsetX p == (inject_Z CUP_WIDTH - drawWidth p) / 2
  /\ offsetY p == (inject_Z CUP_HEIGHT - drawHeight p) / 2.
Proof.
  intros Hw Hh. cbv zeta.
  pose proof (inject_Z_pos _ Hw) as Qw. pose proof (inject_Z_pos _ Hh) as Qh.
  assert (Nw : ~ inject_Z srcW == 0) by (intros E; rewrite E in Qw; discriminate).
  assert (Nh : ~ inject_Z srcH == 0) by (intros E; rewrite E in Qh; discriminate).
  unfold place_image, fit_scale; cbn [drawWidth drawHeight offsetX offsetY num_min num_div num_mul
    num_sub num_of_Z QExact_number].
  set (a := (inject_Z CUP_WIDTH / inject_Z srcW)%Q).
  set (b := (inject_Z CUP_HEIGHT / inject_Z srcH)%Q).
  assert (Ea : (inject_Z srcW * a == inject_Z CUP_WIDTH)%Q) by (unfold a; field; exact Nw).
  assert (Eb : (inject_Z srcH * b == inject_Z CUP_HEIGHT)%Q) by (unfold b; field; exact Nh).
  destruct (Qle_bool a b) eqn:E.
  - apply Qle_bool_iff in E.
    assert (Em : (Qmin a b == a)%Q) by (apply Qminmax.Q.min_l; exact E).
    split; [rewrite Em; reflexivity|]. split; [rewrite Em; reflexivity|].
    split; [rewrite Ea; apply Qle_refl|]. split.
    { rewrite <- Eb. apply Qmult_le_l; assumption. }
    split; [left; exact Ea|]. split; reflexivity.
  - assert (Hba : (b <= a)%Q).
    { apply Qlt_le_weak, Qnot_le_lt. intros C. apply Qle_bool_iff in C. congruence. }
    assert (Em : (Qmin a b == b)%Q) by (apply Qminmax.Q.min_r; exact Hba).
    split; [rewrite Em; reflexivity|]. split; [rewrite Em; reflexivity|].
    split.
    { rewrite <- Ea. apply Qmult_le_l; assumption. }
    split; [rewrite Eb; apply Qle_refl|].
    split; [right; exact Eb|]. split; reflexivity.
Qed.

Lemma contain_fit_exact_witness :
  0 < 575 /\ 0 < 1 /\ drawWidth (place_image (N:=Q) Contain 575 1) == inject_Z CUP_WIDTH.
Proof.
  split; [lia|]. split; [lia|].
  destruct (contain_fit_exact 575 1 ltac:(lia) ltac:(lia)) as (_ & _ & _ & _ & [H|H] & _).
  - exact H.
  - vm_compute in H. discriminate.
Defined.

(** ** Halftone pattern: the comparator *)

Lemma Qcompare_0_opp (q : Q) : Qcompare 0%Q (- q)%Q = CompOpp (Qcompare 0%Q q).
Proof. destruct q as [n d]. unfold Qcompare; simpl. destruct n; reflexivity. Qed.

Lemma angle_cross_swap (a b : Angle) : (angle_cross b a == - angle_cross a b)%Q.
Proof. unfold angle_cross. ring. Qed.

Lemma angle_compare_antisym (a b : Angle) :
  angle_compare b a = CompOpp (angle_compare a b).
Proof.
  unfold angle_compare. rewrite (Nat.compare_antisym (angle_sector a)).
  destruct (Nat.compare (angle_sector a) (angle_sector b)); simpl; try reflexivity.
  rewrite (Qcompare_comp 0%Q 0%Q (Qeq_refl 0%Q) _ _ (angle_cross_swap a b)).
  apply Qcompare_0_opp.
Qed.

Lemma entry_compare_antisym (a b : Entry) :
  entry_compare b a = CompOpp (entry_compare a b).
Proof.
  unfold entry_compare. rewrite Qeq_bool_comm.
  destruct (Qeq_bool (distance a) (distance b)).
  - apply angle_compare_antisym.
  - rewrite <- Qcompare_antisym. reflexivity.
Qed.

Lemma entry_compare_not_gt (a b : Entry) :
  entry_compare a b <> Gt <-> distance_then_angle a b.
Proof.
  unfold entry_compare, distance_then_angle.
  destruct (Qeq_bool (distance a) (distance b)) eqn:E.
  - apply Qeq_bool_iff in E. split.
    + intros Hc. right. split; assumption.
    + intros [Hlt|[_ Hc]]; [|assumption]. exfalso. rewrite E in Hlt. apply (Qlt_irrefl _ Hlt).
  - apply Qeq_bool_neq in E.
    destruct (Qcompare_spec (distance a) (distance b)) as [Heq|Hlt|Hgt].
    + contradiction.
    + split; [intros _; left; assumption | discriminate].
    + split; [intros Hc; contradiction|].
      intros [Hlt|[Heq _]]; exfalso.
      * apply (Qlt_irrefl (distance a)). apply Qlt_trans with (distance b); assumption.
      * apply E. assumption.
Qed.

(** ** Halftone pattern: the sort *)

Lemma sort_insert_perm (x : Entry) (l : list Entry) : sort_insert x l ≡ₚ x :: l.
Proof.
  induction l as [|y l IH]; simpl; [reflexivity|].
  destruct (entry_compare x y); try reflexivity;
    rewrite IH; apply perm_swap.
Qed.

Lemma js_sort_perm_acc (l acc : list Entry) :
  fold_left (fun acc x => sort_insert x acc) l acc ≡ₚ l ++ acc.
Proof.
  revert acc. induction l as [|x l IH]; intros acc; simpl; [reflexivity|].
  rewrite IH, sort_insert_perm. symmetry. apply Permutation_middle.
Qed.

Lemma js_sort_perm (l : list Entry) : js_sort l ≡ₚ l.
Proof. unfold js_sort. rewrite js_sort_perm_acc, app_nil_r. reflexivity. Qed.

Lemma entry_le_flip (a b : Entry) : entry_compare a b <> Lt -> entry_le b a.
Proof.
  unfold entry_le. rewrite (entry_compare_antisym a b).
  destruct (entry_compare a b); simpl; intros H1 H2; congruence.
Qed.

Lemma sort_insert_hd (x y : Entry) (l : list Entry) :
  HdRel entry_le y l -> entry_le y x -> HdRel entry_le y (sort_insert x l).
Proof.
  intros Hd Hyx. destruct l as [|z l]; simpl.
  - constructor. assumption.
  - destruct (entry_compare x z); constructor; try assumption; inversion Hd; assumption.
Qed.

Lemma sort_insert_sorted (x : Entry) (l : list Entry) :
  Sorted entry_le l -> Sorted entry_le (sort_insert x l).
Proof.
  induction l as [|y l IH]; intros Hs; simpl.
  - repeat constructor.
  - inversion Hs as [|? ? Hs' Hd]; subst.
    destruct (entry_compare x y) eqn:E.
    + constructor; [apply IH; assumption|].
      apply sort_insert_hd; [assumption|]. apply entry_le_flip. rewrite E. discriminate.
    + constructor; [assumption|]. constructor. unfold entry_le. rewrite E. discriminate.
    + constructor; [apply IH; assumption|].
      apply sort_insert_hd; [assumption|]. apply entry_le_flip. rewrite E. discriminate.
Qed.

Lemma js_sort_sorted (l : list Entry) : Sorted entry_le (js_sort l).
Proof.
  unfold js_sort.
  cut (forall acc, Sorted entry_le acc ->
         Sorted entry_le (fold_left (fun acc x => sort_insert x acc) l acc)).
  { intros Hc. apply Hc. constructor. }
  induction l as [|x l IH]; intros acc Hacc; simpl; [assumption|].
  apply IH. apply sort_insert_sorted. assumption.
Qed.

(** ** Halftone pattern: the entries *)

Lemma map_add_seq (s t n : nat) :
  map (fun x => s + x)%nat (seq t n) = seq (s + t) n.
Proof.
  revert t. induction n as [|n IH]; intros t; simpl; [reflexivity|].
  rewrite IH, Nat.add_succ_r. reflexivity.
Qed.

Lemma make_entries_index (width height : nat) :
  map index (make_entries width height) = seq 0 (width * height).
Proof.
  unfold make_entries. generalize height at 1 as hh.
  induction height as [|h IH]; intros hh.
  - rewrite Nat.mul_0_r. reflexivity.
  - rewrite seq_S, flat_map_app, map_app, IH. simpl.
    rewrite app_nil_r, map_map.
    replace (width * S h)%nat with (width * h + width)%nat by lia.
    rewrite seq_app. f_equal. cbn [index make_entry].
    rewrite (map_add_seq (h * width) 0 width). f_equal. lia.
Qed.

Lemma make_entries_entry_of (width height : nat) (e : Entry) :
  In e (make_entries width height) ->
  e = entry_of width height (index e) /\ (index e < width * height)%nat.
Proof.
  intros Hin. split.
  - unfold make_entries in Hin. apply in_flat_map in Hin as [y [Hy Hin]].
    apply in_map_iff in Hin as [x [<- Hx]].
    apply in_seq in Hx. unfold entry_of. cbn [index make_entry].
    assert (Hw : width <> 0%nat) by lia.
    replace ((y * width + x) mod width)%nat with x.
    + replace ((y * width + x) / width)%nat with y; [reflexivity|].
      rewrite Nat.add_comm, Nat.div_add by exact Hw. rewrite Nat.div_small by lia. lia.
    + rewrite Nat.add_comm, Nat.Div0.mod_add. rewrite Nat.mod_small by lia. reflexivity.
  - apply (in_map index) in Hin. rewrite make_entries_index in Hin.
    apply in_seq in Hin. lia.
Qed.

Lemma sorted_map_index (width height : nat) (l : list Entry) :
  (forall e, In e l -> e = entry_of width height (index e)) ->
  Sorted entry_le l -> Sorted (pattern_order width height) (map index l).
Proof.
  intros Hl Hs. induction Hs as [|a l Hs IH Hd]; simpl; constructor.
  - apply IH. intros e He. apply Hl. right. exact He.
  - destruct Hd as [|b l Hab]; simpl; constructor.
    unfold pattern_order. rewrite <- (Hl a), <- (Hl b) by (simpl; auto).
    apply entry_compare_not_gt. exact Hab.
Qed.

Lemma compute_pattern_index (width height : nat) :
  (width * height <= UINT16_RANGE)%nat ->
  compute_pattern width height = map index (js_sort (make_entries width height)).
Proof.
  intros Hwh. unfold compute_pattern. apply map_ext_in. intros e He.
  apply (Permutation_in _ (js_sort_perm _)) in He.
  apply make_entries_entry_of in He as [_ Hlt]. apply Nat.mod_small. lia.
Qed.

Lemma compute_pattern_perm (width height : nat) :
  (width * height <= UINT16_RANGE)%nat ->
  compute_pattern width height ≡ₚ seq 0 (width * height).
Proof.
  intros Hwh. rewrite compute_pattern_index by exact Hwh.
  rewrite <- make_entries_index. apply Permutation_map, js_sort_perm.
Qed.

Lemma compute_pattern_sorted (width height : nat) :
  (width * height <= UINT16_RANGE)%nat ->
  Sorted (pattern_order width height) (compute_pattern width height).
Proof.
  intros Hwh. rewrite compute_pattern_index by exact Hwh.
  apply sorted_map_index; [|apply js_sort_sorted].
  intros e He. apply (Permutation_in _ (js_sort_perm _)) in He.
  apply make_entries_entry_of in He as [He _]. exact He.
Qed.

Lemma compute_pattern_lt (width height : nat) (i : nat) :
  In i (compute_pattern width height) -> (i < UINT16_RANGE)%nat.
Proof.
  unfold compute_pattern. intros Hin. apply in_map_iff in Hin as [e [<- _]].
  apply Nat.mod_upper_bound. unfold UINT16_RANGE. apply Nat.pow_nonzero. lia.
Qed.

(** ** Halftone pattern: the cache *)

Lemma pretty_N_char_not_x (d : N) : pretty_N_char d <> "x"%char.
Proof. unfold pretty_N_char. repeat case_match; discriminate. Qed.

Lemma pretty_N_go_no_x (n : N) (s : string) : no_x s -> no_x (pretty_N_go n s).
Proof.
  revert s. induction (N.lt_wf_0 n) as [n _ IHn]; intros s Hs.
  destruct (decide (n = 0%N)) as [->|Hn]; [rewrite pretty_N_go_0; exact Hs|].
  rewrite pretty_N_go_step by lia. apply IHn.
  - apply N.div_lt; lia.
  - split; [apply pretty_N_char_not_x | exact Hs].
Qed.

Lemma pretty_nat_no_x (n : nat) : no_x (pretty n).
Proof.
  unfold pretty, pretty_nat, pretty, pretty_N. case_decide.
  - simpl. split; [discriminate | exact I].
  - apply pretty_N_go_no_x. exact I.
Qed.

Lemma split_at_x (s1 s2 t1 t2 : string) :
  no_x s1 -> no_x s2 -> s1 +:+ "x" +:+ t1 = s2 +:+ "x" +:+ t2 -> s1 = s2 /\ t1 = t2.
Proof.
  revert s2. induction s1 as [|c1 s1 IH]; intros [|c2 s2] H1 H2 Heq; simpl in *.
  - injection Heq as Heq. split; [reflexivity | exact Heq].
  - injection Heq as Hc _. destruct H2 as [H2 _]. congruence.
  - injection Heq as Hc _. destruct H1 as [H1 _]. congruence.
  - injection Heq as Hc Heq. destruct H1 as [_ H1], H2 as [_ H2].
    destruct (IH s2 H1 H2 Heq) as [-> ->]. subst. split; reflexivity.
Qed.

Lemma pattern_key_inj (w1 h1 w2 h2 : nat) :
  pattern_key w1 h1 = pattern_key w2 h2 -> w1 = w2 /\ h1 = h2.
Proof.
  unfold pattern_key. intros Heq.
  apply split_at_x in Heq as [Hw Hh]; [|apply pretty_nat_no_x..].
  apply (inj pretty) in Hw, Hh. split; assumption.
Qed.

Lemma cache_ok_empty : cache_ok ∅.
Proof. intros key p Hp. rewrite lookup_empty in Hp. discriminate. Qed.

Lemma getHalftonePattern_ok (cache : PatternCache) (width height : nat) :
  cache_ok cache ->
  fst (getHalftonePattern cache width height) = compute_pattern width height /\
  cache_ok (snd (getHalftonePattern cache width height)) /\
  getHalftonePattern (snd (getHalftonePattern cache width height)) width height
    = getHalftonePattern cache width height.
Proof.
  intros Hc. unfold getHalftonePattern at 1 2 4.
  destruct (cache !! pattern_key width height) as [p|] eqn:E; simpl.
  - destruct (Hc _ _ E) as [w' [h' [Hk ->]]].
    apply pattern_key_inj in Hk as [-> ->].
    split; [reflexivity|]. split; [exact Hc|].
    unfold getHalftonePattern. rewrite E. reflexivity.
  - split; [reflexivity|]. split.
    + intros key p Hp. destruct (decide (key = pattern_key width height)) as [->|Hne].
      * rewrite lookup_insert_eq in Hp. injection Hp as <-. exists width, height. split; reflexivity.
      * rewrite lookup_insert_ne in Hp by congruence. exact (Hc _ _ Hp).
    + unfold getHalftonePattern. rewrite lookup_insert_eq, E. reflexivity.
Qed.

(** C4: for a block of at most 2^16 pixels (every shape the only caller,
    [applySampledMonochrome], passes has sides of at most 32), starting from a
    consistent cache (e.g. the initial empty one), the returned pattern is
    the computed one, a permutation of [0 .. w*h-1], sorted by ascending
    distance from the block centre with ties broken by ascending angle;
    the new cache is consistent again, and calling again returns the same
    pattern and leaves the cache unchanged. *)
Theorem halftone_pattern_spec (cache : PatternCache) (width height : nat) :
  cache_ok cache -> (width * height <= UINT16_RANGE)%nat ->
  let '(pattern, cache') := getHalftonePattern cache width height in
  pattern = compute_pattern width height /\
  pattern ≡ₚ seq 0 (width * height) /\
  Sorted (pattern_order width height) pattern /\
  cache_ok cache' /\
  getHalftonePattern cache' width height = (pattern, cache').
Proof.
  intros Hc Hwh.
  destruct (getHalftonePattern_ok cache width height Hc) as [Hp [Hc' Hagain]].
  destruct (getHalftonePattern cache width height) as [pattern cache'].
  simpl in Hp, Hc', Hagain. subst pattern.
  split; [reflexivity|]. split; [apply compute_pattern_perm; exact Hwh|].
  split; [apply compute_pattern_sorted; exact Hwh|]. split; assumption.
Qed.

Lemma halftone_pattern_spec_witness :
  cache_ok ∅ /\ (3 * 2 <= UINT16_RANGE)%nat /\
  (let '(pattern, cache') := getHalftonePattern ∅ 3 2 in
   pattern = compute_pattern 3 2 /\
   pattern ≡ₚ seq 0 (3 * 2) /\
   Sorted (pattern_order 3 2) pattern /\
   cache_ok cache' /\
   getHalftonePattern cache' 3 2 = (pattern, cache')).
Proof.
  assert (Hc : cache_ok ∅) by exact cache_ok_empty.
  assert (Hwh : (3 * 2 <= UINT16_RANGE)%nat) by (apply Nat.leb_le; vm_compute; reflexivity).
  split; [exact Hc|]. split; [exact Hwh|].
  exact (halftone_pattern_spec ∅ 3 2 Hc Hwh).
Defined.

(** ** Sampled halftone: loops *)

Lemma fold_left_invariant {A B} (f : A -> B -> A) (P : A -> Prop) (l : list B) (a : A) :
  (forall a b, In b l -> P a -> P (f a b)) -> P a -> P (fold_left f l a).
Proof.
  revert a. induction l as [|b l IH]; intros a Hf Ha; simpl; [exact Ha|].
  apply IH; [intros a' b' Hb; apply Hf; right; exact Hb|]. apply Hf; [left; reflexivity|exact Ha].
Qed.




Lemma uint16_range_ge_1024 : (1024 <= UINT16_RANGE)%nat.
Proof.
  unfold UINT16_RANGE. change 1024%nat with (2 ^ 10)%nat.
  apply Nat.pow_le_mono_r; lia.
Qed.

(** ** Sampled halftone: writes *)



Section SampledFacts.
Context {N : Type} `{JsNumber N}.









End SampledFacts.




(* ------------------------------------------------------------------ *)
(** ** Further properties of the code *)

(** *** Colour quantization *)

Lemma quantize_channel_div (s v : Z) :
  0 < s -> quantize_channel s v = Z.min 255 ((2 * v + s) / (2 * s) * s).
Proof. intros Hs. unfold quantize_channel. rewrite js_round_div by exact Hs. reflexivity. Qed.

Lemma div_bounds (v s : Z) : 0 < s ->
  2 * s * ((2 * v + s) / (2 * s)) <= 2 * v + s < 2 * s * ((2 * v + s) / (2 * s)) + 2 * s.
Proof.
  intros Hs. pose proof (Z.div_mod (2 * v + s) (2 * s) ltac:(lia)).
  pose proof (Z.mod_pos_bound (2 * v + s) (2 * s) ltac:(lia)). lia.
Qed.

Lemma quantize_channel_byte (s v : Z) : 0 < s -> 0 <= v <= 255 ->
  0 <= quantize_channel s v <= 255
  /\ 2 * Z.abs (quantize_channel s v - v) <= s
  /\ (quantize_channel s v mod s = 0 \/ quantize_channel s v = 255).
Proof.
  intros Hs Hv. rewrite quantize_channel_div by exact Hs.
  set (k := (2 * v + s) / (2 * s)).
  pose proof (div_bounds v s Hs) as Hb. fold k in Hb.
  assert (Hk : 0 <= k) by (apply Z.div_pos; lia).
  destruct (Z.le_gt_cases (k * s) 255) as [Hle|Hgt].
  - rewrite Z.min_r by exact Hle. split; [nia|]. split; [nia|].
    left. apply Z.mod_mul. lia.
  - rewrite Z.min_l by lia. split; [lia|]. split; [nia|]. right; reflexivity.
Qed.

Lemma quantize_channel_idem (s v : Z) : 0 < s -> 0 <= v <= 255 ->
  quantize_channel s (quantize_channel s v) = quantize_channel s v.
Proof.
  intros Hs Hv. rewrite !(quantize_channel_div s) by exact Hs.
  set (k := (2 * v + s) / (2 * s)).
  assert (Hk : 0 <= k) by (apply Z.div_pos; lia).
  destruct (Z.le_gt_cases (k * s) 255) as [Hle|Hgt].
  - rewrite (Z.min_r 255 (k * s)) by exact Hle.
    replace (2 * (k * s) + s) with (k * (2 * s) + s) by ring.
    rewrite Z.div_add_l by lia. rewrite (Z.div_small s (2 * s)) by lia.
    rewrite Z.add_0_r. lia.
  - rewrite (Z.min_l 255 (k * s)) by lia.
    assert (Hm : k <= (2 * 255 + s) / (2 * s)) by (apply Z.div_le_mono; lia).
    rewrite Z.min_l by nia. reflexivity.
Qed.

Lemma quantize_channel_mono (s v w : Z) : 0 < s -> v <= w ->
  quantize_channel s v <= quantize_channel s w.
Proof.
  intros Hs Hvw. rewrite !(quantize_channel_div s) by exact Hs.
  assert (Hm : (2 * v + s) / (2 * s) <= (2 * w + s) / (2 * s)) by (apply Z.div_le_mono; lia).
  apply Z.min_le_compat_l. nia.
Qed.

Lemma quantize_divisor_pos (step : Z) : 0 < (if step <=? 0 then 1 else step).
Proof. destruct (Z.leb_spec step 0); lia. Qed.

(** X1: for a positive step and byte channels, every quantized colour
    channel is a byte, lies within step/2 of the original value, and is a
    multiple of the step or 255; alpha is kept. *)
Theorem quantize_colors_bounded (data : list Pixel) (step : Z) :
  0 < step -> Forall rgb_bytes data ->
  Forall2 (fun p q =>
      rgb_bytes q
      /\ 2 * Z.abs (px_r q - px_r p) <= step /\ 2 * Z.abs (px_g q - px_g p) <= step
      /\ 2 * Z.abs (px_b q - px_b p) <= step
      /\ (px_r q mod step = 0 \/ px_r q = 255) /\ (px_g q mod step = 0 \/ px_g q = 255)
      /\ (px_b q mod step = 0 \/ px_b q = 255)
      /\ px_a q = px_a p)
    data (quantizeColors data step).
Proof.
  intros Hs Hbytes. unfold quantizeColors.
  rewrite (proj2 (Z.leb_gt step 0) Hs).
  induction Hbytes as [|p data Hp _ IH]; simpl; constructor; [|exact IH].
  destruct Hp as (Hr & Hg & Hb). unfold is_byte in *.
  destruct (quantize_channel_byte step _ Hs Hr) as (Br & Er & Mr).
  destruct (quantize_channel_byte step _ Hs Hg) as (Bg & Eg & Mg).
  destruct (quantize_channel_byte step _ Hs Hb) as (Bb & Eb & Mb).
  cbn [quantize_pixel px_r px_g px_b px_a]. unfold rgb_bytes, is_byte; cbn [px_r px_g px_b].
  tauto.
Qed.

Lemma quantize_colors_bounded_witness :
  0 < 48 /\ Forall rgb_bytes [mkPixel 255 24 7 128]
  /\ Forall2 (fun p q =>
      rgb_bytes q
      /\ 2 * Z.abs (px_r q - px_r p) <= 48 /\ 2 * Z.abs (px_g q - px_g p) <= 48
      /\ 2 * Z.abs (px_b q - px_b p) <= 48
      /\ (px_r q mod 48 = 0 \/ px_r q = 255) /\ (px_g q mod 48 = 0 \/ px_g q = 255)
      /\ (px_b q mod 48 = 0 \/ px_b q = 255)
      /\ px_a q = px_a p)
    [mkPixel 255 24 7 128] (quantizeColors [mkPixel 255 24 7 128] 48).
Proof.
  assert (H : Forall rgb_bytes [mkPixel 255 24 7 128])
    by (repeat constructor; unfold is_byte; simpl; lia).
  split; [lia|]. split; [exact H|].
  exact (quantize_colors_bounded _ 48 ltac:(lia) H).
Defined.

(** X2: on byte channels, quantizing a second time with the same step
    changes nothing, whatever the step. *)
Theorem quantize_colors_idempotent (data : list Pixel) (step : Z) :
  Forall rgb_bytes data ->
  quantizeColors (quantizeColors data step) step = quantizeColors data step.
Proof.
  intros Hbytes. unfold quantizeColors. rewrite map_map. apply map_ext_in.
  intros p Hp. rewrite Forall_forall in Hbytes.
  destruct (Hbytes p ltac:(by apply list_elem_of_In)) as (Hr & Hg & Hb). unfold is_byte in *.
  pose proof (quantize_divisor_pos step) as Hs.
  unfold quantize_pixel; cbn [px_r px_g px_b px_a].
  rewrite !quantize_channel_idem by assumption. reflexivity.
Qed.

Lemma quantize_colors_idempotent_witness :
  Forall rgb_bytes [mkPixel 255 24 7 128; mkPixel 0 100 200 255]
  /\ quantizeColors (quantizeColors [mkPixel 255 24 7 128; mkPixel 0 100 200 255] 80) 80
     = quantizeColors [mkPixel 255 24 7 128; mkPixel 0 100 200 255] 80.
Proof.
  assert (H : Forall rgb_bytes [mkPixel 255 24 7 128; mkPixel 0 100 200 255])
    by (repeat constructor; unfold is_byte; simpl; lia).
  split; [exact H|]. exact (quantize_colors_idempotent _ 80 H).
Defined.

(** X3: quantization keeps the order of channel values between any two
    pixels of the buffer. *)
Theorem quantize_colors_monotone (data : list Pixel) (step : Z) (i j : nat) (p q : Pixel) :
  data !! i = Some p -> data !! j = Some q ->
  exists p' q', quantizeColors data step !! i = Some p' /\ quantizeColors data step !! j = Some q'
  /\ (px_r p <= px_r q -> px_r p' <= px_r q')
  /\ (px_g p <= px_g q -> px_g p' <= px_g q')
  /\ (px_b p <= px_b q -> px_b p' <= px_b q').
Proof.
  intros Hi Hj. unfold quantizeColors.
  set (d := if step <=? 0 then 1 else step).
  pose proof (quantize_divisor_pos step) as Hs. fold d in Hs.
  exists (quantize_pixel d p), (quantize_pixel d q).
  rewrite !list_lookup_fmap, Hi, Hj. split; [reflexivity|]. split; [reflexivity|].
  cbn [quantize_pixel px_r px_g px_b].
  split; [|split]; intros; apply quantize_channel_mono; assumption.
Qed.

Lemma quantize_colors_monotone_witness :
  [mkPixel 10 200 40 255; mkPixel 30 250 40 255] !! 0%nat = Some (mkPixel 10 200 40 255)
  /\ [mkPixel 10 200 40 255; mkPixel 30 250 40 255] !! 1%nat = Some (mkPixel 30 250 40 255)
  /\ exists p' q', quantizeColors [mkPixel 10 200 40 255; mkPixel 30 250 40 255] 64 !! 0%nat = Some p'
     /\ quantizeColors [mkPixel 10 200 40 255; mkPixel 30 250 40 255] 64 !! 1%nat = Some q'
     /\ (10 <= 30 -> px_r p' <= px_r q')
     /\ (200 <= 250 -> px_g p' <= px_g q')
     /\ (40 <= 40 -> px_b p' <= px_b q').
Proof.
  split; [reflexivity|]. split; [reflexivity|].
  exact (quantize_colors_monotone [mkPixel 10 200 40 255; mkPixel 30 250 40 255] 64 0 1 _ _ eq_refl eq_refl).
Defined.

(** *** Binary threshold *)

(** X4: in binary64, a threshold below 0.5 rounds to the limit 0 and
    turns every pixel with non-negative channels white, alpha kept. *)
Theorem binary_threshold_low_all_white (img : ImageData) (t : Q) :
  (t < 1 # 2)%Q ->
  Forall (fun p => 0 <= px_r p /\ 0 <= px_g p /\ 0 <= px_b p) (img_data img) ->
  img_data (applyBinaryThreshold (N:=spec_float) img (Some t)) = map (set_rgb 255) (img_data img).
Proof.
  intros Ht Hnn. unfold applyBinaryThreshold; simpl.
  assert (Hl : threshold_limit (Some t) = 0).
  { unfold threshold_limit, with_default, js_round.
    assert (Hf : Qfloor (t + (1 # 2)) <= 0).
    { assert (Hlt : (t + (1 # 2) < 1)%Q).
      { apply (Qplus_lt_l _ _ (- (1 # 2))). ring_simplify. exact Ht. }
      pose proof (Qfloor_le (t + (1 # 2))) as Hfl.
      assert (Hq : (inject_Z (Qfloor (t + (1 # 2))) < inject_Z 1)%Q)
        by (eapply Qle_lt_trans; [exact Hfl | exact Hlt]).
      rewrite <- Zlt_Qlt in Hq. lia. }
    lia. }
  rewrite Hl. apply map_ext_in. intros p Hp.
  rewrite Forall_forall in Hnn. destruct (Hnn p ltac:(by apply list_elem_of_In)) as (Hr & Hg & Hb).
  unfold binary_pixel; cbv zeta.
  pose proof (luminance_nonneg p Hr Hg Hb) as Hn. unfold F64Facts.nonneg in Hn.
  change (num_leb (num_of_Z 0) (luminance p)) with (SFleb (F64.of_Z 0) (luminance (N:=spec_float) p)).
  rewrite F64_of_Z_0, Hn. reflexivity.
Qed.

Lemma binary_threshold_low_all_white_witness :
  (2 # 5 < 1 # 2)%Q
  /\ Forall (fun p => 0 <= px_r p /\ 0 <= px_g p /\ 0 <= px_b p) [mkPixel 0 0 0 255; mkPixel 30 10 0 7]
  /\ img_data (applyBinaryThreshold (N:=spec_float) (mkImageData 2 1 [mkPixel 0 0 0 255; mkPixel 30 10 0 7]) (Some (2 # 5)))
     = [mkPixel 255 255 255 255; mkPixel 255 255 255 7].
Proof.
  assert (Ht : (2 # 5 < 1 # 2)%Q) by reflexivity.
  assert (H : Forall (fun p => 0 <= px_r p /\ 0 <= px_g p /\ 0 <= px_b p) [mkPixel 0 0 0 255; mkPixel 30 10 0 7])
    by (repeat constructor; simpl; lia).
  split; [exact Ht|]. split; [exact H|].
  exact (binary_threshold_low_all_white (mkImageData 2 1 _) _ Ht H).
Defined.

(** *** Halftone pattern *)

Lemma compute_pattern_length (width height : nat) :
  length (compute_pattern width height) = (width * height)%nat.
Proof.
  unfold compute_pattern. rewrite length_map, (Permutation_length (js_sort_perm _)).
  rewrite <- (length_map index), make_entries_index, length_seq. reflexivity.
Qed.

Lemma entry_le_distance (a b : Entry) : entry_le a b -> (distance a <= distance b)%Q.
Proof.
  unfold entry_le, entry_compare. destruct (Qeq_bool (distance a) (distance b)) eqn:E.
  - intros _. apply Qeq_bool_iff in E. rewrite E. apply Qle_refl.
  - intros H. apply Qle_alt. exact H.
Qed.

Lemma sorted_distance (l : list Entry) :
  Sorted entry_le l -> Sorted (fun a b => distance a <= distance b)%Q l.
Proof.
  induction 1 as [|x l Hs IH Hhd]; constructor; [exact IH|].
  destruct Hhd; constructor. apply entry_le_distance. assumption.
Qed.

Lemma odd_centre_distance (a b x y : nat) :
  (distance (make_entry (2 * a + 1) (2 * b + 1) x y)
   == inject_Z ((Z.of_nat x - Z.of_nat a) * (Z.of_nat x - Z.of_nat a)
                + (Z.of_nat y - Z.of_nat b) * (Z.of_nat y - Z.of_nat b)))%Q.
Proof.
  unfold make_entry; cbn [distance].
  replace (Z.of_nat (2 * a + 1)) with (2 * Z.of_nat a + 1) by lia.
  replace (Z.of_nat (2 * b + 1)) with (2 * Z.of_nat b + 1) by lia.
  unfold Z.sub. rewrite !inject_Z_plus, !inject_Z_mult, !inject_Z_plus, !inject_Z_opp. field.
Qed.

Lemma odd_centre_only_zero (a b : nat) (e : Entry) :
  In e (make_entries (2 * a + 1) (2 * b + 1)) ->
  (distance e <= 0)%Q -> index e = (b * (2 * a + 1) + a)%nat.
Proof.
  intros Hin Hd. destruct (make_entries_entry_of _ _ e Hin) as [He _].
  rewrite He in Hd. unfold entry_of in Hd. rewrite odd_centre_distance in Hd.
  change 0%Q with (inject_Z 0) in Hd. rewrite <- Zle_Qle in Hd.
  set (w := (2 * a + 1)%nat) in *.
  set (X := Z.of_nat (index e mod w) - Z.of_nat a) in Hd.
  set (Y := Z.of_nat (index e / w) - Z.of_nat b) in Hd.
  pose proof (Z.square_nonneg X). pose proof (Z.square_nonneg Y).
  assert (HX : X * X = 0) by lia. assert (HY : Y * Y = 0) by lia.
  apply Z.mul_eq_0 in HX, HY.
  assert (Hx : Z.of_nat (index e mod w) = Z.of_nat a) by (unfold X in HX; lia).
  assert (Hy : Z.of_nat (index e / w) = Z.of_nat b) by (unfold Y in HY; lia).
  apply Nat2Z.inj in Hx, Hy.
  rewrite (Nat.div_mod_eq (index e) w), Hx, Hy. lia.
Qed.

Lemma centre_in_entries (a b : nat) :
  In (make_entry (2 * a + 1) (2 * b + 1) a b) (make_entries (2 * a + 1) (2 * b + 1)).
Proof.
  unfold make_entries. apply in_flat_map. exists b. split; [apply in_seq; lia|].
  apply in_map_iff. exists a. split; [reflexivity|]. apply in_seq. lia.
Qed.

(** X5: for an odd block shape (2a+1) x (2b+1) that fits a [Uint16Array],
    the first pattern entry is the centre pixel [b * (2a+1) + a]. *)
Theorem halftone_pattern_centre_first (cache : PatternCache) (a b : nat) :
  cache_ok cache -> ((2 * a + 1) * (2 * b + 1) <= UINT16_RANGE)%nat ->
  exists rest, fst (getHalftonePattern cache (2 * a + 1) (2 * b + 1)) = (b * (2 * a + 1) + a)%nat :: rest.
Proof.
  intros Hc Hb. rewrite (proj1 (getHalftonePattern_ok cache _ _ Hc)).
  rewrite compute_pattern_index by exact Hb.
  set (E := make_entries (2 * a + 1) (2 * b + 1)).
  pose proof (centre_in_entries a b) as Hce. fold E in Hce.
  pose proof (Permutation_in _ (Permutation_sym (js_sort_perm E)) Hce) as Hce'.
  pose proof (js_sort_sorted E) as Hs.
  destruct (js_sort E) as [|e0 rest] eqn:Es; [destruct Hce'|].
  exists (map index rest). simpl. f_equal.
  assert (He0 : In e0 E).
  { apply (Permutation_in _ (js_sort_perm E)). rewrite Es. left; reflexivity. }
  destruct Hce' as [Heq|Hin].
  - rewrite Heq. cbn [make_entry index]. lia.
  - apply sorted_distance, Sorted_extends in Hs; [|intros x y z; apply Qle_trans].
    rewrite Forall_forall in Hs. specialize (Hs _ ltac:(by apply list_elem_of_In)). cbv beta in Hs.
    apply odd_centre_only_zero; [exact He0|].
    eapply Qle_trans; [exact Hs|]. rewrite odd_centre_distance.
    replace (Z.of_nat a - Z.of_nat a) with 0 by lia.
    replace (Z.of_nat b - Z.of_nat b) with 0 by lia. apply Qle_refl.
Qed.

Lemma halftone_pattern_centre_first_witness :
  cache_ok ∅ /\ ((2 * 2 + 1) * (2 * 1 + 1) <= UINT16_RANGE)%nat
  /\ exists rest, fst (getHalftonePattern ∅ (2 * 2 + 1) (2 * 1 + 1)) = (1 * (2 * 2 + 1) + 2)%nat :: rest.
Proof.
  assert (Hb : ((2 * 2 + 1) * (2 * 1 + 1) <= UINT16_RANGE)%nat)
    by (pose proof uint16_range_ge_1024; lia).
  split; [exact cache_ok_empty|]. split; [exact Hb|].
  exact (halftone_pattern_centre_first ∅ 2 1 cache_ok_empty Hb).
Defined.

(** X6: with a consistent cache, the returned pattern has [width * height]
    entries, all below 65536; afterwards the cache holds it under its own
    key, and the entry of every other shape is unchanged. *)
Theorem halftone_pattern_cache_frame (cache : PatternCache) (width height : nat) :
  cache_ok cache ->
  let '(pattern, cache') := getHalftonePattern cache width height in
  length pattern = (width * height)%nat
  /\ Forall (fun i => i < UINT16_RANGE)%nat pattern
  /\ cache' !! pattern_key width height = Some pattern
  /\ (forall w h, (w, h) <> (width, height) -> cache' !! pattern_key w h = cache !! pattern_key w h).
Proof.
  intros Hc. pose proof (proj1 (getHalftonePattern_ok cache width height Hc)) as Hp.
  destruct (getHalftonePattern cache width height) as [pattern cache'] eqn:G.
  simpl in Hp. subst pattern.
  split; [apply compute_pattern_length|].
  split; [apply Forall_forall; intros i Hi; apply (compute_pattern_lt width height); by apply list_elem_of_In|].
  unfold getHalftonePattern in G.
  destruct (cache !! pattern_key width height) as [p|] eqn:E.
  - inversion G; subst. split; [exact E|]. intros; reflexivity.
  - inversion G; subst. split; [apply lookup_insert_eq|].
    intros w h Hne. apply lookup_insert_ne.
    intros Hk. apply pattern_key_inj in Hk as [-> ->]. exact (Hne eq_refl).
Qed.

Lemma halftone_pattern_cache_frame_witness :
  cache_ok ∅
  /\ length (fst (getHalftonePattern ∅ 3 2)) = 6%nat
  /\ snd (getHalftonePattern ∅ 3 2) !! pattern_key 2 3 = None.
Proof.
  pose proof (halftone_pattern_cache_frame ∅ 3 2 cache_ok_empty) as H.
  destruct (getHalftonePattern ∅ 3 2) as [p c'] eqn:G. destruct H as (Hl & _ & _ & Hf).
  split; [exact cache_ok_empty|]. split; [exact Hl|].
  simpl. rewrite (Hf 2%nat 3%nat ltac:(congruence)). apply lookup_empty.
Defined.

(** *** Sampled mode: the pattern cache *)
Lemma for_range_elem (fuel start stop step r : nat) :
  In r (for_range fuel start stop step) -> (r < stop)%nat /\ exists j, r = (start + j * step)%nat.
Proof.
  revert start. induction fuel as [|fuel IH]; intros start Hr; [destruct Hr|].
  simpl in Hr. destruct (Nat.ltb_spec start stop) as [Hs|Hs]; [|destruct Hr].
  destruct Hr as [<-|Hr].
  - split; [exact Hs|]. exists 0%nat. lia.
  - destruct (IH _ Hr) as [Hlt [j ->]]. split; [exact Hlt|]. exists (S j). lia.
Qed.

Lemma block_extent (stop step r : nat) :
  (0 < step)%nat -> In r (loop_range stop step) ->
  Nat.min step (stop - r) = step \/ Nat.min step (stop - r) = (stop mod step)%nat.
Proof.
  intros Hs Hr. destruct (for_range_elem _ _ _ _ _ Hr) as [Hlt [j Hj]]. simpl in Hj.
  destruct (Nat.le_gt_cases step (stop - r)) as [Hle|Hgt]; [left; lia|right].
  rewrite Nat.min_r by lia. apply (Nat.mod_unique stop step j); lia.
Qed.

Section CacheGrowth.
Context {N : Type} `{JsNumber N}.

Lemma sample_block_growth (cache0 : PatternCache) (bias : N) (width height blockSize y x : nat)
    (st : PatternCache * list Pixel) :
  (0 < blockSize)%nat -> In y (loop_range height blockSize) -> In x (loop_range width blockSize) ->
  (forall k p, cache0 !! k = Some p -> fst st !! k = Some p) ->
  (forall k p, fst st !! k = Some p -> cache0 !! k = Some p \/
     exists bw bh, k = pattern_key bw bh /\ p = compute_pattern bw bh
                   /\ block_shape_ok blockSize width height bw bh) ->
  (forall k p, cache0 !! k = Some p -> fst (sample_block bias width height blockSize y x st) !! k = Some p) /\
  (forall k p, fst (sample_block bias width height blockSize y x st) !! k = Some p -> cache0 !! k = Some p \/
     exists bw bh, k = pattern_key bw bh /\ p = compute_pattern bw bh
                   /\ block_shape_ok blockSize width height bw bh).
Proof.
  destruct st as [cache data]. simpl. intros Hb Hy Hx Hkeep Hnew. unfold sample_block.
  destruct (Nat.eqb _ 0); [split; assumption|].
  unfold getHalftonePattern.
  destruct (cache !! pattern_key (Nat.min blockSize (width - x)) (Nat.min blockSize (height - y)))
    as [q|] eqn:E; simpl; [split; assumption|].
  split.
  - intros k p Hk. specialize (Hkeep k p Hk).
    rewrite lookup_insert_ne; [exact Hkeep|]. intros <-. congruence.
  - intros k p Hk. destruct (decide (k = pattern_key (Nat.min blockSize (width - x)) (Nat.min blockSize (height - y))))
      as [->|Hne].
    + rewrite lookup_insert_eq in Hk. injection Hk as <-. right.
      eexists _, _. split; [reflexivity|]. split; [reflexivity|].
      split; [apply block_extent|apply block_extent]; assumption.
    + rewrite lookup_insert_ne in Hk by congruence. exact (Hnew k p Hk).
Qed.

End CacheGrowth.

(** X7: a sampled run keeps every cache entry, and every entry it adds is
    the pattern of a block shape whose sides are each the block size or
    the image side modulo the block size; a [NaN] density adds none. *)
Theorem sampled_cache_growth {N : Type} `{JsNumber N}
    (cache : PatternCache) (img : ImageData) (density : option NumArg) (threshold : option Q) :
  let cache' := fst (applySampledMonochrome cache img density threshold) in
  (forall k p, cache !! k = Some p -> cache' !! k = Some p) /\
  (forall k p, cache' !! k = Some p -> cache !! k = Some p \/
     exists bs bw bh, block_size density = Some bs /\ k = pattern_key bw bh /\ p = compute_pattern bw bh
                      /\ block_shape_ok (Z.to_nat bs) (img_width img) (img_height img) bw bh).
Proof.
  cbv zeta. unfold applySampledMonochrome.
  destruct (block_size density) as [bs0|] eqn:Ebs; cbv iota;
    [|split; [intros k p Hk; exact Hk | intros k p Hk; left; exact Hk]].
  pose proof (block_size_range density bs0 Ebs) as Hbs.
  assert (Hb : (0 < Z.to_nat bs0)%nat) by lia.
  set (bias := num_div (num_sub (num_of_Z (threshold_limit threshold)) (num_of_Z 170)) (num_of_Z 255)).
  set (bs := Z.to_nat bs0) in *.
  set (P := fun st : PatternCache * list Pixel =>
    (forall k p, cache !! k = Some p -> fst st !! k = Some p) /\
    (forall k p, fst st !! k = Some p -> cache !! k = Some p \/
       exists bw bh, k = pattern_key bw bh /\ p = compute_pattern bw bh
                     /\ block_shape_ok bs (img_width img) (img_height img) bw bh)).
  assert (HP : P (fold_left (fun st y =>
      fold_left (fun st x => sample_block bias (img_width img) (img_height img) bs y x st)
        (loop_range (img_width img) bs) st)
      (loop_range (img_height img) bs) (cache, img_data img))).
  { apply fold_left_invariant.
    - intros st y Hy HPst. apply fold_left_invariant; [|exact HPst].
      intros st' x Hx [Hk Hn]. apply sample_block_growth; assumption.
    - split; [intros k p Hk; exact Hk | intros k p Hk; left; exact Hk]. }
  destruct (fold_left _ _ _) as [cache' data'] eqn:F. destruct HP as [Hk Hn].
  split; [exact Hk|]. intros k p Hp. destruct (Hn k p Hp) as [Ho|(bw & bh & E1 & E2 & E3)]; [left; exact Ho|].
  right. exists bs0, bw, bh. split; [reflexivity|]. split; [exact E1|]. split; [exact E2|exact E3].
Qed.


(** *** Cover fit and the API base *)
Lemma strip_trailing_slash_empty (s : js_string) :
  strip_trailing_slash s = [] <-> s = [] \/ s = [47].
Proof.
  unfold strip_trailing_slash. split.
  - destruct (rev s) as [|c r] eqn:E.
    + intros ->. left. reflexivity.
    + apply (f_equal (@rev Z)) in E. rewrite rev_involutive in E. simpl in E.
      destruct (Z.eqb_spec c 47) as [->|Hc].
      * intros Hr. rewrite Hr in E. right. exact E.
      * intros Hr. rewrite Hr in E. destruct r; simpl in E; [|destruct (rev r)]; discriminate.
  - intros [ -> | -> ]; reflexivity.
Qed.

Lemma strip_trailing_slash_no_slash (s : js_string) :
  ~ [47; 47] `suffix_of` s -> ~ [47] `suffix_of` strip_trailing_slash s.
Proof.
  unfold strip_trailing_slash. intros Hs [k Hk].
  destruct (rev s) as [|c r] eqn:E.
  - apply (f_equal (@rev Z)) in E. rewrite rev_involutive in E. simpl in E. subst s.
    destruct k; simpl in Hk; discriminate.
  - apply (f_equal (@rev Z)) in E. rewrite rev_involutive in E. simpl in E. subst s.
    destruct (Z.eqb_spec c 47) as [->|Hc].
    + apply Hs. exists k. rewrite Hk, <- app_assoc. reflexivity.
    + apply Hc. symmetry. apply (suffix_snoc_inv_1 47 c [] (rev r)). exists k. simpl. exact Hk.
Qed.

Lemma strip_trailing_slash_snoc (u : js_string) : strip_trailing_slash (u ++ [47]) = u.
Proof.
  unfold strip_trailing_slash. rewrite rev_app_distr. simpl. apply rev_involutive.
Qed.

(** X8: a [VITE_API_BASE] that is missing, blank or a lone ['/'] after
    trimming is ignored: the root is the window origin with one trailing
    ['/'] removed, or empty without a window.  Any other value, trimmed and
    with one trailing ['/'] removed, is the root, whatever the origin. *)
Theorem api_env_precedence (env origin : option js_string) :
  (js_trim (with_default [] env) = [] \/ js_trim (with_default [] env) = [47] ->
   resolveApiRoot env origin = match origin with Some o => strip_trailing_slash o | None => [] end)
  /\ (js_trim (with_default [] env) <> [] -> js_trim (with_default [] env) <> [47] ->
   resolveApiRoot env origin = strip_trailing_slash (js_trim (with_default [] env))).
Proof.
  split.
  - intros Hs. apply strip_trailing_slash_empty in Hs.
    unfold resolveApiRoot. rewrite Hs. reflexivity.
  - intros H1 H2. unfold resolveApiRoot.
    destruct (strip_trailing_slash (js_trim (with_default [] env))) eqn:E; [|reflexivity].
    apply strip_trailing_slash_empty in E. tauto.
Qed.

Lemma api_env_precedence_witness :
  resolveApiRoot (Some (utf16_of "  /  ")) (Some (utf16_of "https://a.b/")) = utf16_of "https://a.b"
  /\ resolveApiRoot (Some (utf16_of " https://x.y/ ")) (Some (utf16_of "https://a.b")) = utf16_of "https://x.y".
Proof.
  destruct (api_env_precedence (Some (utf16_of "  /  ")) (Some (utf16_of "https://a.b/"))) as [H1 _].
  destruct (api_env_precedence (Some (utf16_of " https://x.y/ ")) (Some (utf16_of "https://a.b"))) as [_ H2].
  split.
  - rewrite H1 by (right; vm_compute; reflexivity). vm_compute. reflexivity.
  - rewrite H2 by (vm_compute; discriminate). vm_compute. reflexivity.
Defined.

Lemma api_root_no_slash (env origin : option js_string) :
  ~ [47; 47] `suffix_of` js_trim (with_default [] env) ->
  (forall o, origin = Some o -> ~ [47; 47] `suffix_of` o) ->
  ~ [47] `suffix_of` resolveApiRoot env origin.
Proof.
  intros He Ho. unfold resolveApiRoot.
  destruct (strip_trailing_slash (js_trim (with_default [] env))) as [|c r] eqn:E.
  - destruct origin as [o|].
    + apply strip_trailing_slash_no_slash, Ho. reflexivity.
    + intros [k Hk]. destruct k; discriminate.
  - rewrite <- E. apply strip_trailing_slash_no_slash, He.
Qed.

(** X9: unless the trimmed [VITE_API_BASE] or the window origin ends in
    ['//'], [BACKEND_API_BASE] does not end in ['//api'].  Only one trailing
    ['/'] is removed: a trimmed value, or (without one) an origin, of the
    form [t ++ '//'] gives [t ++ '//api']. *)
Theorem api_base_trailing_slash (env origin : option js_string) :
  (~ [47; 47] `suffix_of` js_trim (with_default [] env) ->
   (forall o, origin = Some o -> ~ [47; 47] `suffix_of` o) ->
   ~ utf16_of "//api" `suffix_of` BACKEND_API_BASE env origin)
  /\ (forall t, js_trim (with_default [] env) = t ++ [47; 47] ->
       BACKEND_API_BASE env origin = t ++ utf16_of "//api")
  /\ (forall t, js_trim (with_default [] env) = [] -> origin = Some (t ++ [47; 47]) ->
       BACKEND_API_BASE env origin = t ++ utf16_of "//api").
Proof.
  assert (Hroot : forall t, BACKEND_API_BASE env origin = match t ++ [47] with
                              | [] => utf16_of "/api" | _ :: _ => (t ++ [47]) ++ utf16_of "/api" end ->
                  BACKEND_API_BASE env origin = t ++ utf16_of "//api").
  { intros t ->. destruct t as [|c t]; [reflexivity|]. simpl. rewrite <- app_assoc. reflexivity. }
  split; [|split].
  - intros He Ho. pose proof (api_root_no_slash env origin He Ho) as Hr.
    unfold BACKEND_API_BASE.
    change (utf16_of "//api") with ([47] ++ utf16_of "/api").
    destruct (resolveApiRoot env origin) as [|c r] eqn:E.
    + intros Hs. apply suffix_length in Hs. vm_compute in Hs. lia.
    + intros Hs. apply suffix_app_inv in Hs. exact (Hr Hs).
  - intros t Ht. apply Hroot. unfold BACKEND_API_BASE, resolveApiRoot.
    rewrite Ht. replace (t ++ [47; 47]) with ((t ++ [47]) ++ [47]) by (rewrite <- app_assoc; reflexivity).
    rewrite strip_trailing_slash_snoc. destruct t; reflexivity.
  - intros t Ht Ho. apply Hroot. unfold BACKEND_API_BASE, resolveApiRoot.
    rewrite Ht, Ho. cbn [strip_trailing_slash rev].
    replace (t ++ [47; 47]) with ((t ++ [47]) ++ [47]) by (rewrite <- app_assoc; reflexivity).
    rewrite strip_trailing_slash_snoc. destruct t; reflexivity.
Qed.

Lemma api_base_trailing_slash_witness :
  ~ [47; 47] `suffix_of` js_trim (with_default [] (Some (utf16_of " https://x.y/ ")))
  /\ (forall o, Some (utf16_of "https://a.b") = Some o -> ~ [47; 47] `suffix_of` o)
  /\ ~ utf16_of "//api" `suffix_of` BACKEND_API_BASE (Some (utf16_of " https://x.y/ ")) (Some (utf16_of "https://a.b"))
  /\ BACKEND_API_BASE (Some (utf16_of " https://x.y// ")) None = utf16_of "https://x.y//api"
  /\ BACKEND_API_BASE None (Some (utf16_of "https://a.b//")) = utf16_of "https://a.b//api".
Proof.
  assert (He : ~ [47; 47] `suffix_of` js_trim (with_default [] (Some (utf16_of " https://x.y/ ")))).
  { vm_compute. intros [k Hk]. apply (f_equal (@rev Z)) in Hk. rewrite rev_app_distr in Hk.
    vm_compute in Hk. discriminate. }
  assert (Ho : forall o, Some (utf16_of "https://a.b") = Some o -> ~ [47; 47] `suffix_of` o).
  { intros o Eo. injection Eo as <-. vm_compute. intros [k Hk].
    apply (f_equal (@rev Z)) in Hk. rewrite rev_app_distr in Hk. vm_compute in Hk. discriminate. }
  split; [exact He|]. split; [exact Ho|].
  split; [exact (proj1 (api_base_trailing_slash _ _) He Ho)|].
  split.
  - exact (proj1 (proj2 (api_base_trailing_slash (Some (utf16_of " https://x.y// ")) None))
             (utf16_of "https://x.y") ltac:(vm_compute; reflexivity)).
  - exact (proj2 (proj2 (api_base_trailing_slash None (Some (utf16_of "https://a.b//"))))
             (utf16_of "https://a.b") eq_refl ltac:(vm_compute; reflexivity)).
Defined.

(** X10: in exact arithmetic, with fit = cover the drawn image covers the
    canvas (each side at least the canvas side, one of them equal), is
    scaled by [max(CUP_WIDTH/srcW, CUP_HEIGHT/srcH)] and centred, with
    non-positive offsets. *)
Theorem cover_fit_exact (srcW srcH : Z) :
  0 < srcW -> 0 < srcH ->
  let p := place_image (N:=Q) Cover srcW srcH in
  let scale := Qmax (inject_Z CUP_WIDTH / inject_Z srcW) (inject_Z CUP_HEIGHT / inject_Z srcH) in
  drawWidth p == inject_Z srcW * scale /\ drawHeight p == inject_Z srcH * scale
  /\ (inject_Z CUP_WIDTH <= drawWidth p)%Q /\ (inject_Z CUP_HEIGHT <= drawHeight p)%Q
  /\ (drawWidth p == inject_Z CUP_WIDTH \/ drawHeight p == inject_Z CUP_HEIGHT)
  /\ offsetX p == (inject_Z CUP_WIDTH - drawWidth p) / 2
  /\ offsetY p == (inject_Z CUP_HEIGHT - drawHeight p) / 2
  /\ (offsetX p <= 0)%Q /\ (offsetY p <= 0)%Q.
Proof.
  intros Hw Hh. cbv zeta.
  pose proof (inject_Z_pos _ Hw) as Qw. pose proof (inject_Z_pos _ Hh) as Qh.
  assert (Nw : ~ inject_Z srcW == 0) by (intros E; rewrite E in Qw; discriminate).
  assert (Nh : ~ inject_Z srcH == 0) by (intros E; rewrite E in Qh; discriminate).
  unfold place_image, fit_scale; cbn [drawWidth drawHeight offsetX offsetY num_max num_div num_mul
    num_sub num_of_Z QExact_number].
  set (a := (inject_Z CUP_WIDTH / inject_Z srcW)%Q).
  set (b := (inject_Z CUP_HEIGHT / inject_Z srcH)%Q).
  assert (Ea : (inject_Z srcW * a == inject_Z CUP_WIDTH)%Q) by (unfold a; field; exact Nw).
  assert (Eb : (inject_Z srcH * b == inject_Z CUP_HEIGHT)%Q) by (unfold b; field; exact Nh).
  assert (Hoff : forall c d : Q, (c <= d)%Q -> ((c - d) / 2 <= 0)%Q).
  { intros c d Hcd. apply Qle_shift_div_r; [reflexivity|]. rewrite Qmult_0_l.
    apply (Qplus_le_l _ _ d). ring_simplify. exact Hcd. }
  destruct (Qle_bool a b) eqn:E.
  - apply Qle_bool_iff in E.
    assert (Em : (Qmax a b == b)%Q) by (apply Qminmax.Q.max_r; exact E).
    assert (Hd : (inject_Z CUP_WIDTH <= inject_Z srcW * b)%Q)
      by (rewrite <- Ea; apply Qmult_le_l; assumption).
    split; [rewrite Em; reflexivity|]. split; [rewrite Em; reflexivity|].
    split; [exact Hd|]. split; [rewrite Eb; apply Qle_refl|].
    split; [right; exact Eb|]. split; [reflexivity|]. split; [reflexivity|].
    split; apply Hoff; [exact Hd | rewrite Eb; apply Qle_refl].
  - assert (Hba : (b <= a)%Q).
    { apply Qlt_le_weak, Qnot_le_lt. intros C. apply Qle_bool_iff in C. congruence. }
    assert (Em : (Qmax a b == a)%Q) by (apply Qminmax.Q.max_l; exact Hba).
    assert (Hd : (inject_Z CUP_HEIGHT <= inject_Z srcH * a)%Q)
      by (rewrite <- Eb; apply Qmult_le_l; assumption).
    split; [rewrite Em; reflexivity|]. split; [rewrite Em; reflexivity|].
    split; [rewrite Ea; apply Qle_refl|]. split; [exact Hd|].
    split; [left; exact Ea|]. split; [reflexivity|]. split; [reflexivity|].
    split; apply Hoff; [rewrite Ea; apply Qle_refl | exact Hd].
Qed.

Lemma cover_fit_exact_witness :
  0 < 1000 /\ 0 < 500 /\ (offsetX (place_image (N:=Q) Cover 1000 500) <= 0)%Q.
Proof.
  split; [lia|]. split; [lia|].
  destruct (cover_fit_exact 1000 500 ltac:(lia) ltac:(lia)) as (_ & _ & _ & _ & _ & _ & _ & H & _).
  exact H.
Defined.
